(** * Approximate Killing vector fields on meshes: the least-squares core

    A shallow embedding of the numerical core of [AKVF.ipynb]: the assembly of
    the Killing-energy operator [P], of the constraint operator [Ik], of the
    stacked system [(A, b)], the call of the sparse solver, the reshaping of
    its answer and the per-face energy, with the cell that defines the
    constraints and the split of the gradient.

    Conventions of the embedding.
    - A float64 is an element of [R]: arithmetic is exact, [np.sqrt(2)] is
      [sqrt 2].  Statements about layout, shapes and index order do not
      depend on this; statements about sums and minimisers are statements
      about the real-number semantics of the program.  The one place where
      the program decides with a comparison of computed floats, the cell of
      the constraints, keeps the float64 operations as parameters instead.
    - A [scipy.sparse] matrix is its shape and a finite map from (row, column)
      to the stored value; entries that are not stored read as 0.
    - A 1-D [numpy] array is a list, a 2-D array is its shape and its buffer
      in C (row-major) order.
    - A Python exception is the name of its class.
    - [scipy.sparse.linalg.lsqr] and [igl.grad] are external: the solver is a
      parameter of the development, every call to it is recorded, and the
      gradient blocks [Gx], [Gy], [Gz] are inputs. *)

From Stdlib Require Import Reals Lra Lia List String Sorted.
From stdpp Require Import base option gmap list.

Open Scope R_scope.

(** ** Exceptions *)

Inductive result (A : Type) : Type :=
| Ok (a : A)
| Raise (cls : string).
Arguments Ok {A} a.
Arguments Raise {A} cls.

Global Instance result_ret : MRet result := fun A a => Ok a.
Global Instance result_bind : MBind result := fun A B f r =>
  match r with
  | Ok a => f a
  | Raise c => Raise c
  end.

Definition ValueError : string := "ValueError".
Definition IndexError : string := "IndexError".

(** ** Vectors: 1-D arrays *)

(** [x[i]] for an index that is in range. *)
Definition vget (x : list R) (i : nat) : R := nth i x 0.

(** [np.zeros([N])] *)
Definition zeros (N : nat) : list R := repeat 0 N.

(** [c * x] *)
Definition vscale (c : R) (x : list R) : list R := map (Rmult c) x.

(** [np.square(x)] *)
Definition square (x : list R) : list R := map (fun a => a * a) x.

(** [x.sum()] *)
Definition vsum (x : list R) : R := fold_right Rplus 0 x.

(** The sum of [f 0], ..., [f (N - 1)]. *)
Fixpoint rsum (f : nat -> R) (N : nat) : R :=
  match N with
  | O => 0
  | S N' => rsum f N' + f N'
  end.

(** ** Sparse matrices *)

Record spmatrix : Type := SpMatrix {
  sp_rows : nat;
  sp_cols : nat;
  sp_data : gmap (nat * nat) R
}.

(** [M[i, j]] read as a number. *)
Definition sp_get (M : spmatrix) (i j : nat) : R :=
  default 0 (sp_data M !! (i, j)).

(** Every stored entry lies inside the shape; the library keeps this true of
    every matrix it builds. *)
Definition sp_wf (M : spmatrix) : Prop :=
  map_Forall (fun (k : nat * nat) (_ : R) => (k.1 < sp_rows M)%nat /\ (k.2 < sp_cols M)%nat)
             (sp_data M).

Global Instance sp_wf_dec M : Decision (sp_wf M) :=
  map_Forall_dec _ (sp_data M).

(** [sp.sparse.csr_matrix((k, n))]: the empty matrix of that shape. *)
Definition csr_matrix (k n : nat) : spmatrix := SpMatrix k n ∅.

(** [c * M] *)
Definition sp_scale (c : R) (M : spmatrix) : spmatrix :=
  SpMatrix (sp_rows M) (sp_cols M) (Rmult c <$> sp_data M).

(** [M[i, j] = v] with non-negative [i], [j]: the library checks the indices
    against the shape and raises [IndexError] when one is out of range. *)
Definition sp_setitem (M : spmatrix) (i j : nat) (v : R) : result spmatrix :=
  if ((i <? sp_rows M)%nat && (j <? sp_cols M)%nat)%bool
  then Ok (SpMatrix (sp_rows M) (sp_cols M) (<[(i, j) := v]> (sp_data M)))
  else Raise IndexError.

(** [M @ x]: the shapes must agree, entry [i] of the product is the sum over
    the columns [j] of [M[i, j] * x[j]]. *)
Definition sp_apply (M : spmatrix) (x : list R) : list R :=
  map (fun i => rsum (fun j => sp_get M i j * vget x j) (sp_cols M))
      (seq 0 (sp_rows M)).

Definition sp_matvec (M : spmatrix) (x : list R) : result (list R) :=
  if (length x =? sp_cols M)%nat then Ok (sp_apply M x) else Raise ValueError.

(** *** [scipy.sparse.bmat] *)

(** A block row or column has length 0 until a block fixes it; a later block
    of another size is an error. *)
Definition set_len (cur a : nat) : result nat :=
  if (cur =? 0)%nat then Ok a
  else if (cur =? a)%nat then Ok cur
  else Raise ValueError.

(** [brow_lengths[i]] after the blocks of block row [i]. *)
Fixpoint brow_length (cur : nat) (row : list (option spmatrix)) : result nat :=
  match row with
  | [] => Ok cur
  | None :: row' => brow_length cur row'
  | Some B :: row' => c ← set_len cur (sp_rows B); brow_length c row'
  end.

(** [bcol_lengths] after the blocks of one more block row. *)
Fixpoint bcol_lengths (cur : list nat) (row : list (option spmatrix)) : result (list nat) :=
  match cur, row with
  | c :: cur', b :: row' =>
      c' ← match b with
           | None => Ok c
           | Some B => set_len c (sp_cols B)
           end;
      cs ← bcol_lengths cur' row';
      Ok (c' :: cs)
  | _, _ => Ok []
  end.

Fixpoint all_brow_lengths (bl : list (list (option spmatrix))) : result (list nat) :=
  match bl with
  | [] => Ok []
  | row :: bl' =>
      l ← brow_length 0 row;
      ls ← all_brow_lengths bl';
      Ok (l :: ls)
  end.

Fixpoint all_bcol_lengths (cur : list nat) (bl : list (list (option spmatrix))) : result (list nat) :=
  match bl with
  | [] => Ok cur
  | row :: bl' => c ← bcol_lengths cur row; all_bcol_lengths c bl'
  end.

(** [np.append(0, np.cumsum(lens))], started at [acc]. *)
Fixpoint offsets (acc : nat) (lens : list nat) : list nat :=
  acc :: match lens with
         | [] => []
         | l :: lens' => offsets (acc + l) lens'
         end.

(** The keys of a block moved to its place in the result. *)
Definition shift_key (ro co : nat) (ij : nat * nat) : nat * nat :=
  ((ro + ij.1)%nat, (co + ij.2)%nat).

Definition place (ro co : nat) (b : option spmatrix) : gmap (nat * nat) R :=
  match b with
  | None => ∅
  | Some B => kmap (shift_key ro co) (sp_data B)
  end.

Arguments place : simpl never.
Arguments sp_scale : simpl never.

Fixpoint place_row (ro : nat) (cos : list nat) (row : list (option spmatrix)) : gmap (nat * nat) R :=
  match cos, row with
  | co :: cos', b :: row' => place ro co b ∪ place_row ro cos' row'
  | _, _ => ∅
  end.

Fixpoint place_rows (ros cos : list nat) (bl : list (list (option spmatrix))) : gmap (nat * nat) R :=
  match ros, bl with
  | ro :: ros', row :: bl' => place_row ro cos row ∪ place_rows ros' cos bl'
  | _, _ => ∅
  end.

(** [sp.sparse.bmat(blocks)]: [blocks] must be a 2-D grid; the block rows and
    columns get their sizes from the blocks that are not [None]; every block
    is copied at the offset of its block row and block column.  This is
    scipy's general path, in which a size of 0 leaves the size of a block row
    or column unset.  The notebook's calls take it for [P] (blocks that are
    [None]) and for [A] ([P] is in COO format); for [Ik], whose blocks are
    all CSR, scipy stacks the blocks on a shorter path, which gives the same
    matrix for blocks of one shape and differs only in refusing a size of 0
    next to another size. *)
Definition bmat (bl : list (list (option spmatrix))) : result spmatrix :=
  match bl with
  | [] => Raise ValueError
  | row0 :: _ =>
      if forallb (fun row => (length row =? length row0)%nat) bl
      then
        brows ← all_brow_lengths bl;
        bcols ← all_bcol_lengths (repeat 0%nat (length row0)) bl;
        Ok (SpMatrix (list_sum brows) (list_sum bcols)
              (place_rows (offsets 0 brows) (offsets 0 bcols) bl))
      else Raise ValueError
  end.

(** ** The Killing-energy operator *)

(** [S = np.sqrt(2)] *)
Definition S_sqrt2 : R := sqrt 2.

(** [P = sp.sparse.bmat([[2*Gx, None, None], ..., [None, S*Gz, S*Gy]])] *)
Definition killing_operator (Gx Gy Gz : spmatrix) : result spmatrix :=
  bmat [ [Some (sp_scale 2 Gx); None; None];
         [None; Some (sp_scale 2 Gy); None];
         [None; None; Some (sp_scale 2 Gz)];
         [Some (sp_scale S_sqrt2 Gy); Some (sp_scale S_sqrt2 Gx); None];
         [Some (sp_scale S_sqrt2 Gz); None; Some (sp_scale S_sqrt2 Gx)];
         [None; Some (sp_scale S_sqrt2 Gz); Some (sp_scale S_sqrt2 Gy)] ].

(** ** 2-D arrays *)

Record ndarray : Type := NdArray {
  nd_rows : nat;
  nd_cols : nat;
  nd_data : list R
}.

Definition nd_wf (a : ndarray) : Prop :=
  length (nd_data a) = (nd_rows a * nd_cols a)%nat.

(** [a[i, j]] *)
Definition nd_get (a : ndarray) (i j : nat) : R :=
  vget (nd_data a) (i * nd_cols a + j).

(** [a[i]] *)
Definition nd_row (a : ndarray) (i : nat) : list R :=
  map (nd_get a i) (seq 0 (nd_cols a)).

(** [a[idxs]] for a list of non-negative row indices. *)
Definition take_rows (a : ndarray) (idxs : list nat) : result ndarray :=
  if forallb (fun i => (i <? nd_rows a)%nat) idxs
  then Ok (NdArray (length idxs) (nd_cols a) (flat_map (nd_row a) idxs))
  else Raise IndexError.

(** [a.flatten(order='F')]: column after column. *)
Definition flatten_F (a : ndarray) : list R :=
  flat_map (fun j => map (fun i => nd_get a i j) (seq 0 (nd_rows a)))
           (seq 0 (nd_cols a)).

(** [x.reshape((r, c), order='F')]: entry [(i, j)] is [x[i + j*r]]. *)
Definition reshape_F (x : list R) (r c : nat) : result ndarray :=
  if (length x =? r * c)%nat
  then Ok (NdArray r c
             (flat_map (fun i => map (fun j => vget x (i + j * r)) (seq 0 c))
                       (seq 0 r)))
  else Raise ValueError.

(** [x.reshape(r, -1, order='F')]: the missing dimension is the size
    divided by [r]; numpy refuses [r = 0] and a size that [r] does not
    divide. *)
Definition reshape_F_infer (x : list R) (r : nat) : result ndarray :=
  if ((r =? 0)%nat || negb (length x mod r =? 0)%nat)%bool
  then Raise ValueError
  else reshape_F x r (length x / r).

(** [a.sum(-1)] *)
Definition sum_last (a : ndarray) : list R :=
  map (fun i => vsum (nd_row a i)) (seq 0 (nd_rows a)).

(** ** The constraint operator *)

(** [for i, idx in enumerate(idxs): I[i, idx] = 1], from row [i] on. *)
Fixpoint set_ones (I : spmatrix) (i : nat) (idxs : list nat) : result spmatrix :=
  match idxs with
  | [] => Ok I
  | idx :: idxs' => I' ← sp_setitem I i idx 1; set_ones I' (S i) idxs'
  end.

(** [k = len(idxs); I = csr_matrix((k, n)); for ...: I[i, idx] = 1] *)
Definition selection_matrix (n : nat) (idxs : list nat) : result spmatrix :=
  set_ones (csr_matrix (length idxs) n) 0 idxs.

(** [Ik = sp.sparse.bmat([[1*I,0*I,0*I], [0*I,1*I,0*I], [0*I,0*I,1*I]])] *)
Definition constraint_operator (n : nat) (idxs : list nat) : result spmatrix :=
  I ← selection_matrix n idxs;
  bmat [ [Some (sp_scale 1 I); Some (sp_scale 0 I); Some (sp_scale 0 I)];
         [Some (sp_scale 0 I); Some (sp_scale 1 I); Some (sp_scale 0 I)];
         [Some (sp_scale 0 I); Some (sp_scale 0 I); Some (sp_scale 1 I)] ].

(** ** The solve *)

(** What [lsqr] returns: the iterate and its diagnostics. *)
Record lsqr_result : Type := LsqrResult {
  lsqr_x : list R;
  lsqr_istop : nat;
  lsqr_itn : nat;
  lsqr_r1norm : R;
  lsqr_r2norm : R;
  lsqr_anorm : R;
  lsqr_acond : R;
  lsqr_arnorm : R;
  lsqr_xnorm : R;
  lsqr_var : list R
}.

(** The calls to the external solver, latest first. *)
Inductive call : Type :=
| CallLsqr (A : spmatrix) (b : list R).

(** A computation that may raise and that records its solver calls. *)
Definition M (T : Type) : Type := list call -> result T * list call.

Global Instance M_ret : MRet M := fun T a log => (Ok a, log).
Global Instance M_bind : MBind M := fun T U f c log =>
  match c log with
  | (Ok a, log') => f a log'
  | (Raise e, log') => (Raise e, log')
  end.

Definition lift {T : Type} (r : result T) : M T := fun log => (r, log).

(** The right-hand side
    [b = np.hstack([np.zeros([P.shape[0]]), lmbd*dv[idxs].flatten(order='F')])] *)
Definition rhs (P : spmatrix) (idxs : list nat) (dv : ndarray) (lmbd : R) : result (list R) :=
  t ← take_rows dv idxs;
  Ok (zeros (sp_rows P) ++ vscale lmbd (flatten_F t)).

(** The matrix [A = sp.sparse.bmat([[P], [lmbd*Ik]])] *)
Definition stack (P Ik : spmatrix) (lmbd : R) : result spmatrix :=
  bmat [ [Some P]; [Some (sp_scale lmbd Ik)] ].

(** The system of the cell "Minimize via lstsq", from [k = len(idxs)] to
    [b = ...]: [n] is the number of vertices, [P] the Killing-energy
    operator, [idxs] the constrained vertices, [dv] the array of their
    displacements, [lmbd] the weight. *)
Definition system (n : nat) (P : spmatrix) (idxs : list nat) (dv : ndarray) (lmbd : R)
    : result (spmatrix * list R) :=
  Ik ← constraint_operator n idxs;
  A ← stack P Ik lmbd;
  b ← rhs P idxs dv lmbd;
  Ok (A, b).

Section Solve.

(** [sp.sparse.linalg.lsqr], on the calls in which [b] has one entry for
    each row of [A]: these are the calls of the cell when the targets have
    three columns.  On a [b] of another length scipy's solver raises from
    inside the call, which is not modelled. *)
Variable lsqr : spmatrix -> list R -> lsqr_result.

Definition call_lsqr (A : spmatrix) (b : list R) : M lsqr_result :=
  fun log => (Ok (lsqr A b), CallLsqr A b :: log).

(** The whole cell: the system, [sol = lsqr(A, b)] and
    [du = sol[0].reshape(v.shape, order='F')]; [v] is the vertex array. *)
Definition solve_akvf (v : ndarray) (P : spmatrix) (idxs : list nat)
    (dv : ndarray) (lmbd : R) : M ndarray :=
  Ab ← lift (system (nd_rows v) P idxs dv lmbd);
  sol ← call_lsqr Ab.1 Ab.2;
  lift (reshape_F (lsqr_x sol) (nd_rows v) (nd_cols v)).

End Solve.

(** ** The energy on each face *)

(** [e_K = np.square(P@sol[0]).reshape(len(f),-1, order='F').sum(-1)],
    [m] is [len(f)]. *)
Definition face_energy (m : nat) (P : spmatrix) (x : list R) : result (list R) :=
  y ← sp_matvec P x;
  a ← reshape_F_infer (square y) m;
  Ok (sum_last a).

(** ** Notions used in the statements *)

(** Entry [(r, c)] of the block at block row [bi] and block column [bj] of
    a matrix made of blocks of shape h×w. *)
Definition block_entry (M : spmatrix) (h w bi bj r c : nat) : R :=
  sp_get M (bi * h + r) (bj * w + c).

(** The squared 2-norm. *)
Definition normsq (x : list R) : R := vsum (square x).

(** [A x - b] *)
Definition residual (A : spmatrix) (b x : list R) : list R :=
  zip_with Rminus (sp_apply A x) b.

(** [x] minimises the 2-norm of [A x - b]. *)
Definition is_lsq (A : spmatrix) (b x : list R) : Prop :=
  length x = sp_cols A /\
  forall y, length y = sp_cols A -> normsq (residual A b x) <= normsq (residual A b y).

(** [x] has the least norm among the minimisers. *)
Definition is_min_norm_lsq (A : spmatrix) (b x : list R) : Prop :=
  is_lsq A b x /\ forall y, is_lsq A b y -> normsq x <= normsq y.

(** A displacement field that is an infinitesimal rigid motion of the
    vertices [v]: a translation [t] plus a rotation [w × p]. *)
Definition rigid_motion (v du : ndarray) : Prop :=
  exists tx ty tz wx wy wz : R,
    forall i, (i < nd_rows v)%nat ->
      nd_get du i 0 = tx + (wy * nd_get v i 2 - wz * nd_get v i 1) /\
      nd_get du i 1 = ty + (wz * nd_get v i 0 - wx * nd_get v i 2) /\
      nd_get du i 2 = tz + (wx * nd_get v i 1 - wy * nd_get v i 0).

(** The constraint violation: the sum over the constrained vertices of the
    squared distance between the displacement and its target. *)
Definition violation (idxs : list nat) (dv du : ndarray) : R :=
  vsum (map (fun i => rsum (fun c => (nd_get du i c - nd_get dv i c) * (nd_get du i c - nd_get dv i c)) 3)
            idxs).

(** The stored keys of a map of entries lie in a shape. *)
Definition bounded (d : gmap (nat * nat) R) (h w : nat) : Prop :=
  forall i j v, d !! (i, j) = Some v -> (i < h)%nat /\ (j < w)%nat.

(** The point half way between two vectors. *)
Definition midpoint (x1 x2 : list R) : list R :=
  zip_with (fun a c => (a + c) / 2) x1 x2.

(** The iterate of [r] reported with the diagnostics of [d]. *)
Definition with_diagnostics (r d : lsqr_result) : lsqr_result :=
  LsqrResult (lsqr_x r) (lsqr_istop d) (lsqr_itn d) (lsqr_r1norm d) (lsqr_r2norm d)
             (lsqr_anorm d) (lsqr_acond d) (lsqr_arnorm d) (lsqr_xnorm d) (lsqr_var d).

(** ** A small mesh for examples

    Two vertices, one face; gradient blocks whose rows sum to zero, so that
    constant fields have no gradient. *)

Definition ex_Gx : spmatrix := SpMatrix 1 2 (<[(0, 0)%nat := -1]> (<[(0, 1)%nat := 1]> ∅)).
Definition ex_Gy : spmatrix := SpMatrix 1 2 (<[(0, 0)%nat := -2]> (<[(0, 1)%nat := 2]> ∅)).
Definition ex_Gz : spmatrix := SpMatrix 1 2 ∅.
Definition ex_v : ndarray := NdArray 2 3 [0; 0; 0; 1; 2; 0].

(** An operator of shape 6 × 6 with the entries of [2*Gx] and [2*Gy]. *)
Definition ex_P : spmatrix :=
  SpMatrix 6 6 (<[(0, 0)%nat := -2]> (<[(0, 1)%nat := 2]>
               (<[(1, 2)%nat := -4]> (<[(1, 3)%nat := 4]> ∅)))).

(** Vertex 1 is constrained twice, to move by (1, 0, 0). *)
Definition ex_idxs : list nat := [1; 1]%nat.
Definition ex_dv : ndarray := NdArray 2 3 [0; 0; 0; 1; 0; 0].

(** Two translations along x, the second one with vertex 0 lifted along z. *)
Definition ex_x1 : list R := [1; 1; 0; 0; 0; 0].
Definition ex_x2 : list R := [1; 1; 0; 0; 5; 0].

(** A solver that answers the zero vector and the stop code it is told. *)
Definition ex_lsqr (istop : nat) (A : spmatrix) (b : list R) : lsqr_result :=
  LsqrResult (zeros (sp_cols A)) istop 12 0 0 0 0 0 0 (zeros (sp_cols A)).

(** The system of the example for a weight. *)
Definition ex_sys (lmbd : R) : spmatrix * list R :=
  match system 2 ex_P ex_idxs ex_dv lmbd with
  | Ok Ab => Ab
  | Raise _ => (csr_matrix 0 0, [])
  end.


(** ** The cells around the solve *)

(** [np.zeros([r, c])] *)
Definition nd_zeros (r c : nat) : ndarray := NdArray r c (zeros (r * c)).

(** [a op row] for a 2-D array and a 1-D array, with numpy's broadcasting:
    the number of columns and the length must agree unless one of them is 1,
    and an operand of size 1 along the columns is repeated. *)
Definition broadcast_row (op : R -> R -> R) (a : ndarray) (row : list R) : result ndarray :=
  let ca := nd_cols a in
  let l := length row in
  if ((ca =? l)%nat || (ca =? 1)%nat || (l =? 1)%nat)%bool
  then
    let w := if (ca =? 1)%nat then l else ca in
    Ok (NdArray (nd_rows a) w
          (flat_map
             (fun i => map (fun j => op (nd_get a i (if (ca =? 1)%nat then 0%nat else j))
                                        (vget row (if (l =? 1)%nat then 0%nat else j)))
                           (seq 0 w))
             (seq 0 (nd_rows a))))
  else Raise ValueError.

(** The field that moves every one of [n] vertices by [t]:
    [np.zeros([n, 3]) + t], as the cell of the constraints builds [dv_ear]. *)
Definition uniform_field (n : nat) (t : list R) : result ndarray :=
  broadcast_row Rplus (nd_zeros n 3) t.

(** A gradient block gives 0 on constant fields: the entries of each of its
    rows add up to 0. *)
Definition kills_constants (G : spmatrix) : Prop :=
  forall r, (r < sp_rows G)%nat -> rsum (fun c => sp_get G r c) (sp_cols G) = 0.

(** The Killing-energy operator of the example mesh, the translation of its
    constrained vertex, and the system of the example with that operator. *)
Definition ex_PK : spmatrix :=
  match killing_operator ex_Gx ex_Gy ex_Gz with
  | Ok P => P
  | Raise _ => csr_matrix 0 0
  end.
Definition ex_U : ndarray :=
  match uniform_field 2 [1; 0; 0] with
  | Ok U => U
  | Raise _ => nd_zeros 0 0
  end.
Definition ex_sysK (lmbd : R) : spmatrix * list R :=
  match system 2 ex_PK ex_idxs ex_dv lmbd with
  | Ok Ab => Ab
  | Raise _ => (csr_matrix 0 0, [])
  end.


(** ** The gradient blocks *)

(** [M[a:b]] for non-negative bounds: the rows [a], ..., [b - 1] that exist,
    renumbered from 0; bounds beyond the last row are cut to it. *)
Definition sp_row_slice (M : spmatrix) (a b : nat) : spmatrix :=
  let lo := Nat.min a (sp_rows M) in
  let hi := Nat.min b (sp_rows M) in
  SpMatrix (hi - lo) (sp_cols M)
    (map_fold (fun (k : nat * nat) (v : R) (acc : gmap (nat * nat) R) =>
                 if decide (lo <= k.1 < hi)%nat
                 then <[((k.1 - lo)%nat, k.2) := v]> acc
                 else acc)
              ∅ (sp_data M)).

(** [Gx, Gy, Gz = G[:m], G[m:2*m], G[2*m:]] *)
Definition split_gradient (G : spmatrix) (m : nat) : spmatrix * spmatrix * spmatrix :=
  (sp_row_slice G 0 m, sp_row_slice G m (2 * m), sp_row_slice G (2 * m) (sp_rows G)).

(** The cell "Least-squares" from the gradient [G] on: the split and [P]. *)
Definition killing_operator_of_gradient (G : spmatrix) (m : nat) : result spmatrix :=
  let '(Gx, Gy, Gz) := split_gradient G m in
  killing_operator Gx Gy Gz.

(** A gradient of the example: the blocks [ex_Gx], [ex_Gy], [ex_Gz] stacked. *)
Definition ex_G : spmatrix :=
  SpMatrix 3 2 (<[(0, 0)%nat := -1]> (<[(0, 1)%nat := 1]>
               (<[(1, 0)%nat := -2]> (<[(1, 1)%nat := 2]> ∅)))).

(** ** The cell "Define constraints" *)

(** numpy computes on float64.  The development reads the numbers of the
    notebook as reals, but this cell decides with two comparisons which
    vertices are constrained, and a rounded sum can fall on the other side
    of a comparison than the exact one.  The float64 operations that feed
    the two comparisons are therefore not replaced by the exact ones: they
    are operations on the values of the floats about which nothing is
    assumed.  [f_lit] is the float of a decimal literal, [f_sub], [f_add]
    and [f_square] are numpy's [-], [+] and [np.square] on floats and
    [f_sum] is [.sum()] of one row.  The comparison and the minimum of
    floats are exact. *)
Record float64_ops : Type := Float64Ops {
  f_lit : R -> R;
  f_sub : R -> R -> R;
  f_add : R -> R -> R;
  f_square : R -> R;
  f_sum : list R -> R
}.

(** The arithmetic that never rounds. *)
Definition exact_ops : float64_ops :=
  Float64Ops (fun a => a) Rminus Rplus (fun a => a * a) vsum.

(** An arithmetic in which a sum keeps its first operand: what float64
    does to [ymin + .002] when [ymin] is large. *)
Definition absorbing_ops : float64_ops :=
  Float64Ops (fun a => a) Rminus (fun a _ => a) (fun a => a * a) vsum.

(** [f(a)], entry by entry, for a 2-D array. *)
Definition nd_map (f : R -> R) (a : ndarray) : ndarray :=
  NdArray (nd_rows a) (nd_cols a) (map f (nd_data a)).

(** [a.sum(1)], each row added up by [fsum]. *)
Definition row_sums (fsum : list R -> R) (a : ndarray) : list R :=
  map (fun i => fsum (nd_row a i)) (seq 0 (nd_rows a)).

Global Instance Rlt_decision (a b : R) : Decision (a < b) := Rlt_dec a b.

(** [x < c], entry by entry; the comparison of two floats is the comparison
    of their values. *)
Definition less_than (x : list R) (c : R) : list bool :=
  map (fun a => bool_decide (a < c)) x.

(** [np.where(c)[0]]: the positions of the entries that are [True], in
    increasing order; [where_from i] numbers the positions from [i]. *)
Fixpoint where_from (i : nat) (c : list bool) : list nat :=
  match c with
  | [] => []
  | b :: c' => if b then i :: where_from (S i) c' else where_from (S i) c'
  end.

Definition np_where (c : list bool) : list nat := where_from 0 c.

(** [a[:, j]] for a non-negative [j]. *)
Definition nd_col (a : ndarray) (j : nat) : result (list R) :=
  if (j <? nd_cols a)%nat
  then Ok (map (fun i => nd_get a i j) (seq 0 (nd_rows a)))
  else Raise IndexError.

(** [a.min(axis=0)]: the least entry of every column; numpy refuses an
    array without rows. *)
Definition nd_min0 (a : ndarray) : result (list R) :=
  match nd_rows a with
  | O => Raise ValueError
  | S r =>
      Ok (map (fun j => fold_left Rmin (map (fun i => nd_get a i j) (seq 1 r)) (nd_get a 0 j))
              (seq 0 (nd_cols a)))
  end.

(** [x[i]] for a non-negative [i]. *)
Definition vindex (x : list R) (i : nat) : result R :=
  match x !! i with
  | Some a => Ok a
  | None => Raise IndexError
  end.

(** [a[r] = row] *)
Definition set_row (a : ndarray) (r : nat) (row : list R) : ndarray :=
  NdArray (nd_rows a) (nd_cols a)
    (flat_map (fun i => if (i =? r)%nat then row else nd_row a i) (seq 0 (nd_rows a))).

(** The assignments of [a[idxs] = vals] one after the other: row [p], [p + 1],
    ... of [vals] to the rows listed in [idxs]. *)
Fixpoint assign_rows (a : ndarray) (idxs : list nat) (p : nat) (vals : ndarray) : ndarray :=
  match idxs with
  | [] => a
  | idx :: idxs' => assign_rows (set_row a idx (nd_row vals p)) idxs' (S p) vals
  end.

(** [a[idxs] = vals] for non-negative row indices and values with one row
    for each index, as the cell builds them (numpy would also spread a
    single row over the indices). *)
Definition set_rows (a : ndarray) (idxs : list nat) (vals : ndarray) : result ndarray :=
  if forallb (fun i => (i <? nd_rows a)%nat) idxs
  then
    if ((nd_rows vals =? length idxs)%nat && (nd_cols vals =? nd_cols a)%nat)%bool
    then Ok (assign_rows a idxs 0 vals)
    else Raise ValueError
  else Raise IndexError.

(** [pt_ear = np.array([-.02, .17, -.015])], [r_ear = 0.03], the displacement
    [[.01,0,.01]] of the ear and the height [.002] of the base: the decimal
    literals as written; where they enter a comparison the cell uses the
    floats [f_lit] of them. *)
Definition pt_ear : list R := [- (2 / 100); 17 / 100; - (15 / 1000)].
Definition r_ear : R := 3 / 100.
Definition move_ear : list R := [1 / 100; 0; 1 / 100].
Definition height_base : R := 2 / 1000.

(** The squared distance of vertex [i] of [v] from the point [pt], as the
    cell computes it: [np.square(v[i] - pt).sum()]. *)
Definition sq_dist (fo : float64_ops) (v : ndarray) (i : nat) (pt : list R) : R :=
  f_sum fo (map (fun j => f_square fo (f_sub fo (nd_get v i j) (f_lit fo (vget pt j))))
                (seq 0 3)).

(** What the cell leaves behind. *)
Record constraints : Type := Constraints {
  cs_idxs_ear : list nat;
  cs_idxs_base : list nat;
  cs_idxs : list nat;
  cs_dv : ndarray
}.

(** The cell, for the vertex array [v].  The targets [dv] are read as
    reals, like the other numbers of the notebook. *)
Definition define_constraints (fo : float64_ops) (v : ndarray) : result constraints :=
  d ← broadcast_row (f_sub fo) v (map (f_lit fo) pt_ear);
  let idxs_ear :=
    np_where (less_than (row_sums (f_sum fo) (nd_map (f_square fo) d))
                        (f_square fo (f_lit fo r_ear))) in
  dv_ear ← uniform_field (length idxs_ear) move_ear;
  y ← nd_col v 1;
  lowest ← nd_min0 v;
  ymin ← vindex lowest 1;
  let idxs_base := np_where (less_than y (f_add fo ymin (f_lit fo height_base))) in
  let dv_base := nd_zeros (length idxs_base) 3 in
  let idxs := idxs_ear ++ idxs_base in
  let dv0 := nd_zeros (nd_rows v) (nd_cols v) in
  dv1 ← set_rows dv0 idxs_ear dv_ear;
  dv2 ← set_rows dv1 idxs_base dv_base;
  Ok (Constraints idxs_ear idxs_base idxs dv2).

(** * Properties *)

(** ** Sparse matrices *)

Global Instance shift_key_inj ro co : Inj (=) (=) (shift_key ro co).
Proof.
  intros [a b] [c d]; unfold shift_key; simpl.
  intros H; inversion H; f_equal; lia.
Qed.

Lemma set_len_same a : set_len a a = Ok a.
Proof.
  unfold set_len. destruct (a =? 0)%nat; [reflexivity|].
  now rewrite Nat.eqb_refl.
Qed.

Lemma sp_get_scale c M i j : sp_get (sp_scale c M) i j = c * sp_get M i j.
Proof.
  unfold sp_get, sp_scale; simpl. rewrite lookup_fmap.
  destruct (sp_data M !! (i, j)); simpl; ring.
Qed.

Lemma sp_wf_scale c M : sp_wf M -> sp_wf (sp_scale c M).
Proof.
  intros Hwf [i j] v. unfold sp_scale; simpl. rewrite lookup_fmap.
  destruct (sp_data M !! (i, j)) eqn:E; simpl; [|discriminate].
  intros _. exact (Hwf (i, j) r E).
Qed.

Lemma place_in ro co B i j :
  (ro <= i)%nat -> (co <= j)%nat ->
  place ro co (Some B) !! (i, j) = sp_data B !! ((i - ro)%nat, (j - co)%nat).
Proof.
  intros Hi Hj. unfold place.
  replace (i, j) with (shift_key ro co ((i - ro)%nat, (j - co)%nat)).
  - apply (lookup_kmap (shift_key ro co)).
  - unfold shift_key; simpl; f_equal; lia.
Qed.

Lemma place_out ro co B i j :
  sp_wf B ->
  ~ ((ro <= i < ro + sp_rows B)%nat /\ (co <= j < co + sp_cols B)%nat) ->
  place ro co (Some B) !! (i, j) = None.
Proof.
  intros Hwf Hout. unfold place.
  apply (lookup_kmap_None (shift_key ro co)).
  intros [a b] E. unfold shift_key in E; simpl in E. inversion E; subst.
  destruct (sp_data B !! (a, b)) eqn:El; [|reflexivity].
  apply Hwf in El. simpl in El. exfalso. apply Hout. lia.
Qed.

Lemma union_get_l (d1 d2 : gmap (nat * nat) R) k :
  d1 !! k = None -> (d1 ∪ d2) !! k = d2 !! k.
Proof. intros H. rewrite lookup_union, H. now destruct (d2 !! k). Qed.

Lemma union_get_r (d1 d2 : gmap (nat * nat) R) k :
  d2 !! k = None -> (d1 ∪ d2) !! k = d1 !! k.
Proof. intros H. rewrite lookup_union, H. now destruct (d1 !! k). Qed.

Lemma sp_get_mk h w d i j : sp_get (SpMatrix h w d) i j = default 0 (d !! (i, j)).
Proof. reflexivity. Qed.

Lemma sp_rows_scale c M : sp_rows (sp_scale c M) = sp_rows M.
Proof. reflexivity. Qed.

Lemma sp_cols_scale c M : sp_cols (sp_scale c M) = sp_cols M.
Proof. reflexivity. Qed.

Lemma place_none ro co k : place ro co None !! k = None.
Proof. apply lookup_empty. Qed.

Lemma empty_get (k : nat * nat) : (∅ : gmap (nat * nat) R) !! k = None.
Proof. apply lookup_empty. Qed.

Lemma union_none (d1 d2 : gmap (nat * nat) R) k :
  d1 !! k = None -> d2 !! k = None -> (d1 ∪ d2) !! k = None.
Proof. intros H1 H2. now rewrite union_get_l. Qed.

Create HintDb spwf.
#[export] Hint Resolve sp_wf_scale : spwf.

Ltac absent :=
  repeat lazymatch goal with
  | |- (_ ∪ _) !! _ = None => apply union_none
  | |- place _ _ None !! _ = None => apply place_none
  | |- ∅ !! _ = None => apply empty_get
  | |- place _ _ (Some _) !! _ = None =>
      apply place_out; [solve [auto with spwf] | rewrite ?sp_rows_scale, ?sp_cols_scale; lia]
  end.

Ltac pick_block :=
  repeat first
    [ rewrite union_get_l by absent
    | rewrite union_get_r by absent ].

Ltac use_shapes :=
  repeat match goal with
  | H : sp_rows ?M = _ |- context [sp_rows ?M] => rewrite H
  | H : sp_cols ?M = _ |- context [sp_cols ?M] => rewrite H
  end.

Ltac eval_bmat :=
  unfold bmat;
  repeat (simpl; rewrite ?sp_rows_scale, ?sp_cols_scale, ?set_len_same; use_shapes).

Lemma get_place ro co B i j r c :
  i = (ro + r)%nat -> j = (co + c)%nat ->
  default 0 (place ro co (Some B) !! (i, j)) = sp_get B r c.
Proof.
  intros -> ->. rewrite place_in by lia. unfold sp_get.
  now replace (ro + r - ro)%nat with r by lia; replace (co + c - co)%nat with c by lia.
Qed.

(** The entry at row [r], column [c] of the block found at the key. *)
Ltac block_at r c :=
  pick_block; rewrite (get_place _ _ _ _ _ r c) by lia; rewrite ?sp_get_scale.

(** No block stores anything at the key. *)
Ltac no_block :=
  match goal with
  | |- default 0 (?d !! ?k) = _ =>
      replace (d !! k) with (@None R) by (symmetry; absent); simpl; try ring
  end.

Lemma sp_wf_bounded M : sp_wf M <-> bounded (sp_data M) (sp_rows M) (sp_cols M).
Proof.
  split.
  - intros H i j v E. exact (H (i, j) v E).
  - intros H [i j] v E. exact (H i j v E).
Qed.

Lemma bounded_empty h w : bounded ∅ h w.
Proof. intros i j v E. now rewrite lookup_empty in E. Qed.

Lemma bounded_union d1 d2 h w :
  bounded d1 h w -> bounded d2 h w -> bounded (d1 ∪ d2) h w.
Proof.
  intros H1 H2 i j v E. apply lookup_union_Some_raw in E.
  destruct E as [E|[_ E]]; eauto.
Qed.

Lemma bounded_place ro co b h w :
  match b with
  | None => True
  | Some B => sp_wf B /\ (ro + sp_rows B <= h)%nat /\ (co + sp_cols B <= w)%nat
  end ->
  bounded (place ro co b) h w.
Proof.
  destruct b as [B|]; [|intros _; apply bounded_empty].
  intros (Hwf & Hh & Hw) i j v E. unfold place in E.
  apply (lookup_kmap_Some (shift_key ro co)) in E.
  destruct E as ([a c] & Ek & E). unfold shift_key in Ek; simpl in Ek.
  inversion Ek; subst. apply (Hwf (a, c)) in E. simpl in E. lia.
Qed.

Ltac in_shape :=
  apply sp_wf_bounded; simpl sp_data; simpl sp_rows; simpl sp_cols;
  repeat lazymatch goal with
  | |- bounded (_ ∪ _) _ _ => apply bounded_union
  | |- bounded ∅ _ _ => apply bounded_empty
  | |- bounded (place _ _ None) _ _ => apply bounded_empty
  | |- bounded (place _ _ (Some _)) _ _ =>
      apply bounded_place; split;
        [solve [auto with spwf] | rewrite ?sp_rows_scale, ?sp_cols_scale; lia]
  end.

(** ** The Killing-energy operator *)

(** The operator built from well-formed blocks of one shape: its shape, its
    well-formedness and its blocks. *)
Lemma killing_operator_spec Gx Gy Gz m n :
  sp_wf Gx -> sp_wf Gy -> sp_wf Gz ->
  sp_rows Gx = m -> sp_cols Gx = n ->
  sp_rows Gy = m -> sp_cols Gy = n ->
  sp_rows Gz = m -> sp_cols Gz = n ->
  exists P, killing_operator Gx Gy Gz = Ok P /\
    sp_rows P = (6 * m)%nat /\ sp_cols P = (3 * n)%nat /\ sp_wf P /\
    forall r c, (r < m)%nat -> (c < n)%nat ->
      let gx := sp_get Gx r c in
      let gy := sp_get Gy r c in
      let gz := sp_get Gz r c in
      (block_entry P m n 0 0 r c = 2 * gx /\
       block_entry P m n 0 1 r c = 0 /\
       block_entry P m n 0 2 r c = 0) /\
      (block_entry P m n 1 0 r c = 0 /\
       block_entry P m n 1 1 r c = 2 * gy /\
       block_entry P m n 1 2 r c = 0) /\
      (block_entry P m n 2 0 r c = 0 /\
       block_entry P m n 2 1 r c = 0 /\
       block_entry P m n 2 2 r c = 2 * gz) /\
      (block_entry P m n 3 0 r c = sqrt 2 * gy /\
       block_entry P m n 3 1 r c = sqrt 2 * gx /\
       block_entry P m n 3 2 r c = 0) /\
      (block_entry P m n 4 0 r c = sqrt 2 * gz /\
       block_entry P m n 4 1 r c = 0 /\
       block_entry P m n 4 2 r c = sqrt 2 * gx) /\
      (block_entry P m n 5 0 r c = 0 /\
       block_entry P m n 5 1 r c = sqrt 2 * gz /\
       block_entry P m n 5 2 r c = sqrt 2 * gy).
Proof.
  intros Hwx Hwy Hwz Hrx Hcx Hry Hcy Hrz Hcz.
  unfold killing_operator. eval_bmat.
  eexists; split; [reflexivity|]. simpl sp_rows; simpl sp_cols.
  split; [lia|]. split; [lia|]. split; [in_shape|].
  intros r c Hr Hc. unfold block_entry. rewrite !sp_get_mk. fold S_sqrt2.
  repeat split; first [ no_block | block_at r c; reflexivity ].
Qed.

(** C1. For gradient blocks [Gx], [Gy], [Gz] of shape m×n, [P] is built, has
    shape 6m × 3n, and its block at block row [bi] and block column [bj]
    (rows [bi*m ..], columns [bj*n ..]) is, row by row, [2Gx 0 0],
    [0 2Gy 0], [0 0 2Gz], [√2Gy √2Gx 0], [√2Gz 0 √2Gx], [0 √2Gz √2Gy]. *)
Theorem killing_operator_blocks Gx Gy Gz m n :
  sp_wf Gx -> sp_wf Gy -> sp_wf Gz ->
  sp_rows Gx = m -> sp_cols Gx = n ->
  sp_rows Gy = m -> sp_cols Gy = n ->
  sp_rows Gz = m -> sp_cols Gz = n ->
  exists P, killing_operator Gx Gy Gz = Ok P /\
    sp_rows P = (6 * m)%nat /\ sp_cols P = (3 * n)%nat /\
    forall r c, (r < m)%nat -> (c < n)%nat ->
      let gx := sp_get Gx r c in
      let gy := sp_get Gy r c in
      let gz := sp_get Gz r c in
      (block_entry P m n 0 0 r c = 2 * gx /\
       block_entry P m n 0 1 r c = 0 /\
       block_entry P m n 0 2 r c = 0) /\
      (block_entry P m n 1 0 r c = 0 /\
       block_entry P m n 1 1 r c = 2 * gy /\
       block_entry P m n 1 2 r c = 0) /\
      (block_entry P m n 2 0 r c = 0 /\
       block_entry P m n 2 1 r c = 0 /\
       block_entry P m n 2 2 r c = 2 * gz) /\
      (block_entry P m n 3 0 r c = sqrt 2 * gy /\
       block_entry P m n 3 1 r c = sqrt 2 * gx /\
       block_entry P m n 3 2 r c = 0) /\
      (block_entry P m n 4 0 r c = sqrt 2 * gz /\
       block_entry P m n 4 1 r c = 0 /\
       block_entry P m n 4 2 r c = sqrt 2 * gx) /\
      (block_entry P m n 5 0 r c = 0 /\
       block_entry P m n 5 1 r c = sqrt 2 * gz /\
       block_entry P m n 5 2 r c = sqrt 2 * gy).
Proof.
  intros Hwx Hwy Hwz Hrx Hcx Hry Hcy Hrz Hcz.
  destruct (killing_operator_spec Gx Gy Gz m n) as (P & E & Hr & Hc & _ & Hb);
    try assumption.
  exists P. auto.
Qed.

(** ** The constraint operator *)

Lemma sp_setitem_ok M i j v :
  (i < sp_rows M)%nat -> (j < sp_cols M)%nat ->
  sp_setitem M i j v = Ok (SpMatrix (sp_rows M) (sp_cols M) (<[(i, j) := v]> (sp_data M))).
Proof.
  intros Hi Hj. unfold sp_setitem.
  apply Nat.ltb_lt in Hi, Hj. now rewrite Hi, Hj.
Qed.

(** The loop writes a 1 in row [i + p], column [idxs[p]], for every position
    [p] of the list, and leaves the other entries as they were. *)
Lemma set_ones_spec idxs : forall I i,
  Forall (fun idx => (idx < sp_cols I)%nat) idxs ->
  (i + length idxs <= sp_rows I)%nat ->
  exists I', set_ones I i idxs = Ok I' /\
    sp_rows I' = sp_rows I /\ sp_cols I' = sp_cols I /\
    forall r c, sp_data I' !! (r, c) =
      if decide ((i <= r)%nat /\ idxs !! (r - i)%nat = Some c)
      then Some 1 else sp_data I !! (r, c).
Proof.
  induction idxs as [|idx idxs IH]; intros I i Hall Hlen.
  - exists I. repeat split; try reflexivity.
    intros r c. case_decide as H; [|reflexivity].
    destruct H as [_ H]. now rewrite lookup_nil in H.
  - inversion Hall as [|? ? Hidx Hall']; subst. simpl in Hlen.
    simpl set_ones. rewrite sp_setitem_ok by lia. simpl.
    destruct (IH (SpMatrix (sp_rows I) (sp_cols I) (<[(i, idx) := 1]> (sp_data I))) (S i))
      as (I' & E & Hr & Hc & Hd); [exact Hall' | simpl; lia |].
    exists I'. split; [exact E|]. split; [exact Hr|]. split; [exact Hc|].
    intros r c. rewrite Hd. simpl.
    destruct (decide (r = i)) as [->|Hne].
    + replace (i - i)%nat with 0%nat by lia. simpl.
      rewrite decide_False by lia.
      destruct (decide (idx = c)) as [->|Hc'].
      * rewrite lookup_insert_eq. rewrite decide_True; [reflexivity|]. split; [lia|reflexivity].
      * rewrite lookup_insert_ne by congruence.
        rewrite decide_False; [reflexivity|]. intros [_ H]. congruence.
    + rewrite lookup_insert_ne by congruence.
      destruct (decide (i < r)%nat) as [Hlt|Hge].
      * replace (r - i)%nat with (S (r - S i)) by lia. simpl.
        case_decide as H1; case_decide as H2; try reflexivity; exfalso.
        -- apply H2. destruct H1; split; [lia|assumption].
        -- apply H1. destruct H2; split; [lia|assumption].
      * rewrite !decide_False by lia. reflexivity.
Qed.

Lemma selection_matrix_spec n idxs :
  Forall (fun idx => (idx < n)%nat) idxs ->
  exists I, selection_matrix n idxs = Ok I /\
    sp_rows I = length idxs /\ sp_cols I = n /\ sp_wf I /\
    forall r c, sp_get I r c = if decide (idxs !! r = Some c) then 1 else 0.
Proof.
  intros Hall. unfold selection_matrix.
  destruct (set_ones_spec idxs (csr_matrix (length idxs) n) 0)
    as (I & E & Hr & Hc & Hd); [exact Hall | simpl; lia |].
  simpl in Hr, Hc.
  assert (Hd' : forall r c, sp_data I !! (r, c) =
                  if decide (idxs !! r = Some c) then Some 1 else None).
  { intros r c. rewrite Hd. replace (r - 0)%nat with r by lia. simpl.
    rewrite lookup_empty.
    case_decide as H1; case_decide as H2; try reflexivity; exfalso.
    - apply H2, H1.
    - apply H1. split; [lia|assumption]. }
  exists I. split; [exact E|]. split; [exact Hr|]. split; [exact Hc|]. split.
  - intros [r c] v Hv. rewrite Hd' in Hv. case_decide as H; [|discriminate].
    simpl. rewrite Hr, Hc. split.
    + now apply lookup_lt_Some in H.
    + rewrite Forall_forall in Hall. apply Hall.
      apply list_elem_of_lookup. eauto.
  - intros r c. unfold sp_get. rewrite Hd'. now case_decide.
Qed.

Lemma constraint_operator_spec n idxs :
  Forall (fun idx => (idx < n)%nat) idxs ->
  exists Ik, constraint_operator n idxs = Ok Ik /\
    sp_rows Ik = (3 * length idxs)%nat /\ sp_cols Ik = (3 * n)%nat /\ sp_wf Ik /\
    forall bi bj i c, (bi < 3)%nat -> (bj < 3)%nat -> (i < length idxs)%nat -> (c < n)%nat ->
      block_entry Ik (length idxs) n bi bj i c =
        if decide (bi = bj /\ idxs !! i = Some c) then 1 else 0.
Proof.
  intros Hall.
  destruct (selection_matrix_spec n idxs Hall) as (I & E & Hr & Hc & Hwf & Hget).
  unfold constraint_operator. rewrite E. simpl mbind.
  set (k := length idxs) in *. eval_bmat.
  eexists; split; [reflexivity|]. simpl sp_rows; simpl sp_cols.
  split; [lia|]. split; [lia|]. split; [in_shape|].
  intros bi bj i c Hbi Hbj Hi Hcn. unfold block_entry. rewrite sp_get_mk.
  destruct bi as [|[|[|bi]]]; try lia; destruct bj as [|[|[|bj]]]; try lia;
    block_at i c; rewrite Hget; repeat case_decide; try ring; exfalso; intuition congruence.
Qed.

(** C4. For constrained vertex ids [idxs] (k of them, all vertices of the
    mesh, repetitions allowed), [Ik] is built, has shape 3k × 3n, and is made
    of 3 × 3 blocks of shape k × n: off the diagonal the blocks are zero, and
    in each diagonal block row [i] holds a single 1, in column [idxs[i]], and
    zeros elsewhere.  A vertex that occurs at two positions gets its two
    rows. *)
Theorem constraint_operator_blocks n idxs :
  Forall (fun idx => (idx < n)%nat) idxs ->
  exists Ik, constraint_operator n idxs = Ok Ik /\
    sp_rows Ik = (3 * length idxs)%nat /\ sp_cols Ik = (3 * n)%nat /\
    forall bi bj i c, (bi < 3)%nat -> (bj < 3)%nat -> (i < length idxs)%nat -> (c < n)%nat ->
      block_entry Ik (length idxs) n bi bj i c =
        if decide (bi = bj /\ idxs !! i = Some c) then 1 else 0.
Proof.
  intros Hall.
  destruct (constraint_operator_spec n idxs Hall) as (Ik & E & Hr & Hc & _ & Hget).
  exists Ik. auto.
Qed.

(** ** Arrays: flattening and reshaping *)

(** A table written row after row: its length and its entries. *)
Lemma length_grid (g : nat -> nat -> R) w h : forall s,
  length (flat_map (fun i => map (g i) (seq 0 w)) (seq s h)) = (h * w)%nat.
Proof.
  induction h as [|h IH]; intros s; simpl; [reflexivity|].
  now rewrite length_app, length_map, length_seq, IH.
Qed.

Lemma nth_grid (g : nat -> nat -> R) w h : forall s i j,
  (i < h)%nat -> (j < w)%nat ->
  nth (i * w + j) (flat_map (fun i => map (g i) (seq 0 w)) (seq s h)) 0 = g (s + i)%nat j.
Proof.
  induction h as [|h IH]; intros s i j Hi Hj; [lia|]. simpl.
  destruct i as [|i].
  - rewrite app_nth1 by (rewrite length_map, length_seq; lia). simpl.
    rewrite (nth_indep _ 0 (g s 0%nat)) by (rewrite length_map, length_seq; lia).
    rewrite map_nth, seq_nth by lia. now rewrite Nat.add_0_r.
  - rewrite app_nth2 by (rewrite length_map, length_seq; lia).
    rewrite length_map, length_seq.
    replace (S i * w + j - w)%nat with (i * w + j)%nat by lia.
    rewrite IH by lia. f_equal. lia.
Qed.

Lemma grid_ext (l : list R) w h (g : nat -> nat -> R) :
  length l = (h * w)%nat ->
  (forall i j, (i < h)%nat -> (j < w)%nat -> g i j = nth (i * w + j) l 0) ->
  flat_map (fun i => map (g i) (seq 0 w)) (seq 0 h) = l.
Proof.
  intros Hlen Hg. apply (nth_ext _ _ 0 0).
  - now rewrite length_grid.
  - intros p Hp. rewrite length_grid in Hp.
    assert (Hw : (0 < w)%nat) by (destruct w; [lia|lia]).
    pose proof (Nat.div_mod_eq p w) as Hdm.
    pose proof (Nat.mod_upper_bound p w ltac:(lia)) as Hmod.
    assert (Hdiv : (p / w < h)%nat) by (apply Nat.Div0.div_lt_upper_bound; lia).
    replace p with ((p / w) * w + p mod w)%nat at 1 2 by lia.
    rewrite nth_grid by assumption. simpl. now apply Hg.
Qed.

Lemma flatten_F_length a : length (flatten_F a) = (nd_cols a * nd_rows a)%nat.
Proof. unfold flatten_F. apply (length_grid (fun j i => nd_get a i j)). Qed.

(** Entry [(i, j)] goes to position [j * rows + i]. *)
Lemma flatten_F_get a i j :
  (i < nd_rows a)%nat -> (j < nd_cols a)%nat ->
  vget (flatten_F a) (j * nd_rows a + i) = nd_get a i j.
Proof.
  intros Hi Hj. unfold vget, flatten_F.
  now rewrite (nth_grid (fun j i => nd_get a i j)) by assumption.
Qed.

Lemma reshape_F_ok x r c :
  length x = (r * c)%nat ->
  reshape_F x r c =
    Ok (NdArray r c (flat_map (fun i => map (fun j => vget x (i + j * r)) (seq 0 c)) (seq 0 r))).
Proof. intros H. unfold reshape_F. apply Nat.eqb_eq in H. now rewrite H. Qed.

Lemma reshape_F_total x r c :
  length x = (r * c)%nat -> exists du, reshape_F x r c = Ok du.
Proof. intros H. rewrite (reshape_F_ok x r c H). eauto. Qed.

(** Position [j * r + i] becomes entry [(i, j)]. *)
Lemma reshape_F_get x r c du i j :
  reshape_F x r c = Ok du -> (i < r)%nat -> (j < c)%nat ->
  nd_rows du = r /\ nd_cols du = c /\ nd_wf du /\ nd_get du i j = vget x (j * r + i).
Proof.
  unfold reshape_F. destruct (length x =? r * c)%nat; [|discriminate].
  intros [= <-] Hi Hj. unfold nd_wf, nd_get; simpl.
  rewrite (length_grid (fun i j => vget x (i + j * r))).
  repeat split. unfold vget at 1.
  rewrite (nth_grid (fun i j => vget x (i + j * r))) by assumption.
  simpl. f_equal. lia.
Qed.

Lemma reshape_flatten_F a :
  nd_wf a -> reshape_F (flatten_F a) (nd_rows a) (nd_cols a) = Ok a.
Proof.
  intros Hwf. rewrite reshape_F_ok by (rewrite flatten_F_length; lia).
  destruct a as [r c l]; unfold nd_wf in Hwf; simpl in *. f_equal. f_equal.
  apply grid_ext; [assumption|]. intros i j Hi Hj.
  replace (i + j * r)%nat with (j * r + i)%nat by lia.
  now rewrite (flatten_F_get (NdArray r c l)) by assumption.
Qed.

(** C3. The right-hand side and the solution use one convention: the entry
    of vertex [i] and axis [c] is at position [c * n + i] of the flat vector,
    both when an n×3 array is flattened and when a vector of length 3n is
    reshaped.  So flattening an n×3 array and reshaping the result gives the
    array back. *)
Theorem flatten_reshape_round_trip (a : ndarray) (n : nat) :
  nd_rows a = n -> nd_cols a = 3%nat -> nd_wf a ->
  (forall i c, (i < n)%nat -> (c < 3)%nat ->
     vget (flatten_F a) (c * n + i) = nd_get a i c) /\
  (forall x, length x = (3 * n)%nat ->
     exists du, reshape_F x n 3 = Ok du /\
       nd_rows du = n /\ nd_cols du = 3%nat /\
       forall i c, (i < n)%nat -> (c < 3)%nat -> nd_get du i c = vget x (c * n + i)) /\
  reshape_F (flatten_F a) n 3 = Ok a.
Proof.
  intros Hr Hc Hwf. split; [|split].
  - intros i c Hi Hc3. rewrite <- Hr. apply flatten_F_get; lia.
  - intros x Hx. eexists. split; [apply reshape_F_ok; lia|].
    split; [reflexivity|]. split; [reflexivity|].
    intros i c Hi Hc3.
    eapply reshape_F_get; [apply reshape_F_ok; lia| |]; assumption.
  - rewrite <- Hr, <- Hc. now apply reshape_flatten_F.
Qed.

(** ** The stacked system *)

Lemma stack_spec P Ik lmbd :
  sp_wf P -> sp_wf Ik -> sp_cols Ik = sp_cols P ->
  exists A, stack P Ik lmbd = Ok A /\
    sp_rows A = (sp_rows P + sp_rows Ik)%nat /\ sp_cols A = sp_cols P /\
    (forall i j, (i < sp_rows P)%nat -> (j < sp_cols P)%nat ->
       sp_get A i j = sp_get P i j) /\
    (forall i j, (i < sp_rows Ik)%nat -> (j < sp_cols P)%nat ->
       sp_get A (sp_rows P + i) j = lmbd * sp_get Ik i j).
Proof.
  intros HwP HwI Hc. unfold stack. eval_bmat.
  eexists; split; [reflexivity|]. simpl sp_rows; simpl sp_cols.
  split; [lia|]. split; [lia|]. split.
  - intros i j Hi Hj. rewrite sp_get_mk. now block_at i j.
  - intros i j Hi Hj. rewrite sp_get_mk. now block_at i j.
Qed.

Lemma nth_flat_map_const (f : nat -> list R) w : forall l i j,
  (forall x, length (f x) = w) ->
  (i < length l)%nat -> (j < w)%nat ->
  nth (i * w + j) (flat_map f l) 0 = nth j (f (nth i l 0%nat)) 0.
Proof.
  induction l as [|a l IH]; intros i j Hf Hi Hj; simpl in Hi; [lia|]. simpl flat_map.
  destruct i as [|i].
  - rewrite app_nth1 by (rewrite Hf; lia). reflexivity.
  - rewrite app_nth2 by (rewrite Hf; lia). rewrite Hf.
    replace (S i * w + j - w)%nat with (i * w + j)%nat by lia.
    rewrite IH by (auto; lia). reflexivity.
Qed.

Lemma nd_row_length a i : length (nd_row a i) = nd_cols a.
Proof. unfold nd_row. now rewrite length_map, length_seq. Qed.

Lemma nd_row_get a i j : (j < nd_cols a)%nat -> nth j (nd_row a i) 0 = nd_get a i j.
Proof.
  intros Hj. unfold nd_row.
  rewrite (nth_indep _ 0 (nd_get a i 0%nat)) by (rewrite length_map, length_seq; lia).
  now rewrite map_nth, seq_nth by lia.
Qed.

(** [dv[idxs]]: row [i] of the result is row [idxs[i]] of [dv]. *)
Lemma take_rows_spec a idxs :
  Forall (fun idx => (idx < nd_rows a)%nat) idxs ->
  exists t, take_rows a idxs = Ok t /\
    nd_rows t = length idxs /\ nd_cols t = nd_cols a /\
    forall i j, (i < length idxs)%nat -> (j < nd_cols a)%nat ->
      nd_get t i j = nd_get a (nth i idxs 0%nat) j.
Proof.
  intros Hall. unfold take_rows.
  assert (Hb : forallb (fun i => (i <? nd_rows a)%nat) idxs = true).
  { apply forallb_forall. intros x Hx. apply Nat.ltb_lt.
    rewrite Forall_forall in Hall. now apply Hall, list_elem_of_In. }
  rewrite Hb. eexists; split; [reflexivity|]. simpl.
  split; [reflexivity|]. split; [reflexivity|].
  intros i j Hi Hj. unfold nd_get at 1; simpl. unfold vget.
  rewrite (nth_flat_map_const (nd_row a) (nd_cols a)) by (auto using nd_row_length).
  now apply nd_row_get.
Qed.

(** The pieces of the system for constrained vertices of the mesh. *)
Lemma system_spec P idxs dv lmbd n :
  nd_rows dv = n -> nd_cols dv = 3%nat ->
  sp_wf P -> sp_cols P = (3 * n)%nat ->
  Forall (fun idx => (idx < n)%nat) idxs ->
  exists Ik A t,
    constraint_operator n idxs = Ok Ik /\
    system n P idxs dv lmbd = Ok (A, zeros (sp_rows P) ++ vscale lmbd (flatten_F t)) /\
    (sp_rows Ik = (3 * length idxs)%nat /\ sp_cols Ik = (3 * n)%nat /\
     forall bi bj i c, (bi < 3)%nat -> (bj < 3)%nat -> (i < length idxs)%nat -> (c < n)%nat ->
       block_entry Ik (length idxs) n bi bj i c =
         if decide (bi = bj /\ idxs !! i = Some c) then 1 else 0) /\
    (sp_rows A = (sp_rows P + 3 * length idxs)%nat /\ sp_cols A = (3 * n)%nat /\
     (forall i j, (i < sp_rows P)%nat -> (j < 3 * n)%nat -> sp_get A i j = sp_get P i j) /\
     (forall i j, (i < 3 * length idxs)%nat -> (j < 3 * n)%nat ->
        sp_get A (sp_rows P + i) j = lmbd * sp_get Ik i j)) /\
    (nd_rows t = length idxs /\ nd_cols t = 3%nat /\
     forall i c, (i < length idxs)%nat -> (c < 3)%nat ->
       nd_get t i c = nd_get dv (nth i idxs 0%nat) c).
Proof.
  intros Hdr Hdc HwP HcP Hall.
  destruct (constraint_operator_spec n idxs Hall) as (Ik & EIk & HrI & HcI & HwI & HgI).
  destruct (stack_spec P Ik lmbd HwP HwI) as (A & EA & HrA & HcA & HtA & HbA); [lia|].
  destruct (take_rows_spec dv idxs) as (t & Et & Hrt & Hct & Hgt); [now rewrite Hdr|].
  exists Ik, A, t. rewrite HrI, HcP in *. rewrite Hdc in *.
  split; [assumption|]. split.
  { unfold system, rhs. rewrite EIk. simpl mbind. rewrite EA. simpl mbind.
    rewrite Et. reflexivity. }
  repeat split; assumption.
Qed.

Lemma vget_zeros N p : vget (zeros N) p = 0.
Proof.
  unfold vget, zeros. revert p. induction N as [|N IH]; intros [|p]; simpl; auto.
Qed.

Lemma vget_vscale c x p : vget (vscale c x) p = c * vget x p.
Proof.
  unfold vget, vscale. revert p. induction x as [|a x IH]; intros [|p]; simpl; auto; ring.
Qed.

Lemma vget_app_l (u w : list R) p : (p < length u)%nat -> vget (u ++ w) p = vget u p.
Proof. intros Hp. unfold vget. now rewrite app_nth1. Qed.

Lemma vget_app_r (u w : list R) a q :
  length u = a -> vget (u ++ w) (a + q) = vget w q.
Proof.
  intros <-. unfold vget. rewrite app_nth2 by lia. f_equal. lia.
Qed.

Section SolveProperties.

Variable lsqr : spmatrix -> list R -> lsqr_result.

(** The cell, once its three assemblies have succeeded: one call of the
    solver on the system, then the reshaping of the iterate. *)
Lemma solve_akvf_unfold v P idxs dv lmbd log A b :
  system (nd_rows v) P idxs dv lmbd = Ok (A, b) ->
  solve_akvf lsqr v P idxs dv lmbd log =
    (reshape_F (lsqr_x (lsqr A b)) (nd_rows v) (nd_cols v), CallLsqr A b :: log).
Proof.
  intros E. unfold solve_akvf, lift, call_lsqr, mbind, M_bind.
  rewrite E. reflexivity.
Qed.


End SolveProperties.

(** ** Sums *)

Lemma rsum_ext f g N :
  (forall i, (i < N)%nat -> f i = g i) -> rsum f N = rsum g N.
Proof.
  induction N as [|N IH]; intros H; simpl; [reflexivity|].
  rewrite IH by (intros; apply H; lia). now rewrite H by lia.
Qed.

Lemma rsum_zero N : rsum (fun _ => 0) N = 0.
Proof. induction N as [|N IH]; simpl; [reflexivity|]. rewrite IH. ring. Qed.

Lemma rsum_plus f g N : rsum (fun i => f i + g i) N = rsum f N + rsum g N.
Proof. induction N as [|N IH]; simpl; [ring|]. rewrite IH. ring. Qed.

Lemma rsum_scale c f N : rsum (fun i => c * f i) N = c * rsum f N.
Proof. induction N as [|N IH]; simpl; [ring|]. rewrite IH. ring. Qed.

Lemma rsum_nonneg f N : (forall i, (i < N)%nat -> 0 <= f i) -> 0 <= rsum f N.
Proof.
  induction N as [|N IH]; intros H; simpl; [lra|].
  specialize (IH ltac:(intros; apply H; lia)). specialize (H N ltac:(lia)). lra.
Qed.

Lemma rsum_shift f N : rsum f (S N) = f 0%nat + rsum (fun i => f (S i)) N.
Proof.
  induction N as [|N IH]; [simpl; ring|].
  change (rsum f (S (S N))) with (rsum f (S N) + f (S N)).
  rewrite IH. simpl. ring.
Qed.

Lemma rsum_app f a b : rsum f (a + b) = rsum f a + rsum (fun i => f (a + i)%nat) b.
Proof.
  induction b as [|b IH]; simpl.
  - rewrite Nat.add_0_r. ring.
  - replace (a + S b)%nat with (S (a + b)) by lia. simpl. rewrite IH. ring.
Qed.

(** A sum over [h] consecutive blocks of length [w]. *)
Lemma rsum_blocks f h w :
  rsum f (h * w) = rsum (fun j => rsum (fun i => f (j * w + i)%nat) w) h.
Proof.
  induction h as [|h IH]; simpl; [reflexivity|].
  replace (w + h * w)%nat with (h * w + w)%nat by lia.
  now rewrite rsum_app, IH.
Qed.

Lemma rsum_exchange (g : nat -> nat -> R) h w :
  rsum (fun i => rsum (fun j => g i j) h) w = rsum (fun j => rsum (fun i => g i j) w) h.
Proof.
  induction h as [|h IH]; simpl.
  - apply rsum_zero.
  - now rewrite rsum_plus, IH.
Qed.

(** A single 1 among zeros picks one term. *)
Lemma rsum_pick (P : nat -> Prop) `{forall j, Decision (P j)} f N p :
  (p < N)%nat -> P p -> (forall j, P j -> j = p) ->
  rsum (fun j => (if decide (P j) then 1 else 0) * f j) N = f p.
Proof.
  intros Hp HP Huniq. induction N as [|N IH]; [lia|]. simpl.
  destruct (decide (p = N)) as [->|Hne].
  - rewrite decide_True by assumption.
    rewrite (rsum_ext _ (fun _ => 0)), rsum_zero; [ring|].
    intros j Hj. rewrite decide_False; [ring|]. intros HPj. apply Huniq in HPj. lia.
  - rewrite IH by lia. rewrite decide_False; [ring|].
    intros HPN. apply Huniq in HPN. lia.
Qed.

Lemma vsum_rsum l : vsum l = rsum (vget l) (length l).
Proof.
  induction l as [|a l IH]; [reflexivity|].
  simpl length. rewrite rsum_shift. simpl. now rewrite IH.
Qed.

Lemma vsum_map_seq (f : nat -> R) N : vsum (map f (seq 0 N)) = rsum f N.
Proof.
  rewrite vsum_rsum, length_map, length_seq. apply rsum_ext. intros i Hi.
  unfold vget. rewrite (nth_indep _ 0 (f 0%nat)) by (rewrite length_map, length_seq; lia).
  now rewrite map_nth, seq_nth by lia.
Qed.

Lemma vsum_map_list (f : nat -> R) (l : list nat) :
  vsum (map f l) = rsum (fun p => f (nth p l 0%nat)) (length l).
Proof.
  induction l as [|a l IH]; [reflexivity|].
  simpl length. rewrite rsum_shift. simpl. now rewrite IH.
Qed.

Lemma vget_square y p : vget (square y) p = vget y p * vget y p.
Proof.
  unfold vget, square. revert p. induction y as [|a y IH]; intros [|p]; simpl; auto; ring.
Qed.

Lemma length_square y : length (square y) = length y.
Proof. apply length_map. Qed.

Lemma normsq_rsum y : normsq y = rsum (fun p => vget y p * vget y p) (length y).
Proof.
  unfold normsq. rewrite vsum_rsum, length_square. apply rsum_ext.
  intros p _. apply vget_square.
Qed.

Lemma normsq_nonneg y : 0 <= normsq y.
Proof. rewrite normsq_rsum. apply rsum_nonneg. intros; nra. Qed.

Lemma vget_map_seq (f : nat -> R) N i : (i < N)%nat -> vget (map f (seq 0 N)) i = f i.
Proof.
  intros Hi. unfold vget.
  rewrite (nth_indep _ 0 (f 0%nat)) by (rewrite length_map, length_seq; lia).
  now rewrite map_nth, seq_nth by lia.
Qed.

(** ** The energy on each face *)

Lemma sp_apply_length M x : length (sp_apply M x) = sp_rows M.
Proof. unfold sp_apply. now rewrite length_map, length_seq. Qed.

Lemma sp_apply_get M x i :
  (i < sp_rows M)%nat ->
  vget (sp_apply M x) i = rsum (fun j => sp_get M i j * vget x j) (sp_cols M).
Proof. intros Hi. unfold sp_apply. now rewrite vget_map_seq. Qed.

Lemma reshape_F_infer_ok x r c :
  (0 < r)%nat -> length x = (c * r)%nat ->
  reshape_F_infer x r = reshape_F x r c.
Proof.
  intros Hr Hx. unfold reshape_F_infer.
  destruct (r =? 0)%nat eqn:E; [apply Nat.eqb_eq in E; lia|].
  rewrite Hx, Nat.Div0.mod_mul, Nat.div_mul by lia. reflexivity.
Qed.

(** The energies when there is a face: entry [i] adds the squares found at
    [i], [m + i], ..., [5m + i]. *)
Lemma face_energy_spec m P x :
  (0 < m)%nat -> sp_rows P = (6 * m)%nat -> length x = sp_cols P ->
  face_energy m P x =
    Ok (map (fun i => rsum (fun j => vget (square (sp_apply P x)) (j * m + i)) 6)
            (seq 0 m)).
Proof.
  intros Hm Hr Hx. unfold face_energy, sp_matvec.
  apply Nat.eqb_eq in Hx. rewrite Hx. simpl mbind.
  set (sq := square (sp_apply P x)).
  assert (Hsq : length sq = (6 * m)%nat)
    by (unfold sq; now rewrite length_square, sp_apply_length).
  rewrite (reshape_F_infer_ok sq m 6 Hm Hsq).
  rewrite reshape_F_ok by lia. simpl mbind. f_equal.
  unfold sum_last. simpl nd_rows. apply map_ext_in. intros i Hi.
  apply in_seq in Hi. unfold nd_row. simpl nd_cols.
  rewrite vsum_map_seq. apply rsum_ext. intros j Hj.
  unfold nd_get. simpl nd_cols. simpl nd_data. unfold vget at 1.
  rewrite (nth_grid (fun i j => vget sq (i + j * m))) by lia.
  simpl. f_equal. lia.
Qed.

Lemma face_energy_no_face P x : face_energy 0 P x = Raise ValueError.
Proof.
  unfold face_energy, sp_matvec.
  destruct (length x =? sp_cols P)%nat; reflexivity.
Qed.

(** C5, for a mesh with at least one face.  For a vector [x] of length 3n the
    evaluator returns an array of length m; its entry [i] is the sum of the
    squares of the entries [i], [m+i], [2m+i], [3m+i], [4m+i], [5m+i] of
    [P x], and it is not negative. *)
Theorem face_energy_entries m n P x :
  (0 < m)%nat ->
  sp_rows P = (6 * m)%nat -> sp_cols P = (3 * n)%nat -> length x = (3 * n)%nat ->
  exists e, face_energy m P x = Ok e /\ length e = m /\
    forall i, (i < m)%nat ->
      let y := sp_apply P x in
      vget e i = (vget y i)² + (vget y (m + i))² + (vget y (2 * m + i))² +
                 (vget y (3 * m + i))² + (vget y (4 * m + i))² + (vget y (5 * m + i))² /\
      0 <= vget e i.
Proof.
  intros Hm Hr Hc Hx.
  rewrite (face_energy_spec m P x Hm Hr) by lia.
  eexists; split; [reflexivity|]. split; [now rewrite length_map, length_seq|].
  intros i Hi y. rewrite vget_map_seq by assumption. fold y.
  assert (E : rsum (fun j => vget (square y) (j * m + i)) 6 =
              (vget y i)² + (vget y (m + i))² + (vget y (2 * m + i))² +
              (vget y (3 * m + i))² + (vget y (4 * m + i))² + (vget y (5 * m + i))²).
  { cbv [rsum]. rewrite !vget_square. unfold Rsqr.
    replace (0 * m + i)%nat with i by lia.
    replace (1 * m + i)%nat with (m + i)%nat by lia. ring. }
  rewrite E. split; [reflexivity|].
  repeat apply Rplus_le_le_0_compat; apply Rle_0_sqr.
Qed.

(** C10. For a vector [x] of length 3n, the evaluator returns one energy for
    each of the m faces, the energy of face [i] being the sum of the squares
    of the entries [i], [m + i], ..., [5m + i] of [P x], and these m energies
    add up to the squared 2-norm of [P x]; the evaluator does return them as
    soon as the mesh has a face. *)
Theorem face_energy_sum m n P x :
  sp_rows P = (6 * m)%nat -> sp_cols P = (3 * n)%nat -> length x = (3 * n)%nat ->
  ((0 < m)%nat -> exists e, face_energy m P x = Ok e) /\
  forall e, face_energy m P x = Ok e ->
    length e = m /\
    (forall i, (i < m)%nat ->
       vget e i = rsum (fun j => vget (sp_apply P x) (j * m + i) *
                                 vget (sp_apply P x) (j * m + i)) 6) /\
    vsum e = normsq (sp_apply P x).
Proof.
  intros Hr Hc Hx. split.
  - intros Hm. rewrite (face_energy_spec m P x Hm Hr) by lia. eauto.
  - intros e He. destruct (Nat.eq_dec m 0%nat) as [->|Hm].
    + now rewrite face_energy_no_face in He.
    + assert (He' : e = map (fun i => rsum (fun j => vget (square (sp_apply P x)) (j * m + i)) 6)
                            (seq 0 m)).
      { rewrite (face_energy_spec m P x) in He by lia. congruence. }
      rewrite He'. split; [now rewrite length_map, length_seq|]. split.
      * intros i Hi.
        rewrite (vget_map_seq (fun i => rsum (fun j => vget (square (sp_apply P x)) (j * m + i)) 6))
          by assumption.
        apply rsum_ext. intros j _. apply vget_square.
      * rewrite vsum_map_seq.
        rewrite (rsum_exchange (fun i j => vget (square (sp_apply P x)) (j * m + i)) 6 m).
        unfold normsq. rewrite vsum_rsum, length_square, sp_apply_length, Hr.
        now rewrite rsum_blocks.
Qed.

(** ** Errors *)

(** A constrained vertex that is not a vertex stops the loop that fills [I]. *)
Lemma set_ones_out idxs : forall I i,
  Exists (fun idx => (sp_cols I <= idx)%nat) idxs ->
  set_ones I i idxs = Raise IndexError.
Proof.
  induction idxs as [|idx idxs IH]; intros I i Hex; [inversion Hex|].
  simpl. unfold sp_setitem.
  destruct ((i <? sp_rows I)%nat && (idx <? sp_cols I)%nat)%bool eqn:E; [|reflexivity].
  simpl. apply IH. simpl.
  inversion Hex as [? ? Hout|? ? Hout]; subst; [|assumption].
  apply andb_prop in E. destruct E as [_ E]. apply Nat.ltb_lt in E. lia.
Qed.

Lemma constraint_operator_out n idxs :
  Exists (fun idx => (n <= idx)%nat) idxs ->
  constraint_operator n idxs = Raise IndexError.
Proof.
  intros Hex. unfold constraint_operator, selection_matrix.
  now rewrite set_ones_out.
Qed.

Section ErrorProperties.

Variable lsqr : spmatrix -> list R -> lsqr_result.

(** C6, as the code has it.  When a constrained vertex id is not below the
    number of vertices, the solve raises the sparse library's [IndexError]
    while it fills the selection matrix; the solver has not been called. *)
Theorem solve_akvf_bad_constraint v P idxs dv lmbd log :
  Exists (fun idx => (nd_rows v <= idx)%nat) idxs ->
  selection_matrix (nd_rows v) idxs = Raise IndexError /\
  solve_akvf lsqr v P idxs dv lmbd log = (Raise IndexError, log).
Proof.
  intros Hex. split.
  - unfold selection_matrix. now apply set_ones_out.
  - unfold solve_akvf, system, lift, mbind, M_bind.
    now rewrite constraint_operator_out.
Qed.

(** C7, as the code has it.  The solve reads the iterate and nothing else
    of what the solver returns: with any other stop code, iteration count
    and norms reported for the same iterate, it does the same and returns
    the same. *)
Theorem solve_akvf_ignores_diagnostics (diag : spmatrix -> list R -> lsqr_result)
    v P idxs dv lmbd log :
  solve_akvf (fun A b => with_diagnostics (lsqr A b) (diag A b)) v P idxs dv lmbd log =
  solve_akvf lsqr v P idxs dv lmbd log.
Proof.
  unfold solve_akvf, lift, call_lsqr, mbind, M_bind.
  destruct (system (nd_rows v) P idxs dv lmbd) as [[A b]|]; reflexivity.
Qed.

End ErrorProperties.

(** ** The least-squares objective *)

Lemma vget_zip_minus : forall u w p,
  length u = length w ->
  vget (zip_with Rminus u w) p = vget u p - vget w p.
Proof.
  unfold vget. induction u as [|a u IH]; intros [|b w] p Hl; simpl in Hl; try discriminate.
  - destruct p; simpl; ring.
  - destruct p as [|p]; simpl; [reflexivity|]. apply IH. lia.
Qed.

Lemma length_zip_minus : forall u w : list R,
  length u = length w -> length (zip_with Rminus u w) = length u.
Proof.
  induction u as [|a u IH]; intros [|b w] Hl; simpl in *; try discriminate; [reflexivity|].
  f_equal. apply IH. lia.
Qed.

(** The squared residual as a sum over the rows. *)
Lemma normsq_residual A b x :
  length b = sp_rows A ->
  normsq (residual A b x) =
    rsum (fun p => (vget (sp_apply A x) p - vget b p) * (vget (sp_apply A x) p - vget b p))
         (sp_rows A).
Proof.
  intros Hb. unfold residual.
  assert (Hl : length (sp_apply A x) = length b) by (rewrite sp_apply_length; lia).
  rewrite normsq_rsum, length_zip_minus, sp_apply_length by assumption.
  apply rsum_ext. intros p _. now rewrite vget_zip_minus.
Qed.

Lemma rsum_nonneg_zero f N :
  (forall i, (i < N)%nat -> 0 <= f i) -> rsum f N = 0 ->
  forall i, (i < N)%nat -> f i = 0.
Proof.
  induction N as [|N IH]; intros Hpos Hsum i Hi; [lia|]. simpl in Hsum.
  assert (H1 : 0 <= rsum f N) by (apply rsum_nonneg; intros; apply Hpos; lia).
  assert (H2 : 0 <= f N) by (apply Hpos; lia).
  destruct (Nat.eq_dec i N) as [->|Hne]; [lra|].
  apply IH; [intros; apply Hpos; lia | lra | lia].
Qed.

Lemma length_midpoint : forall x1 x2 : list R,
  length x1 = length x2 -> length (midpoint x1 x2) = length x1.
Proof.
  unfold midpoint.
  induction x1 as [|a x1 IH]; intros [|c x2] Hl; simpl in *; try discriminate; [reflexivity|].
  f_equal. apply IH. lia.
Qed.

Lemma vget_midpoint : forall x1 x2 j,
  length x1 = length x2 ->
  vget (midpoint x1 x2) j = (vget x1 j + vget x2 j) / 2.
Proof.
  unfold vget, midpoint.
  induction x1 as [|a x1 IH]; intros [|c x2] j Hl; simpl in Hl; try discriminate.
  - destruct j; simpl; lra.
  - destruct j as [|j]; simpl; [reflexivity|]. apply IH. lia.
Qed.

Lemma sp_apply_midpoint A x1 x2 p :
  length x1 = length x2 -> (p < sp_rows A)%nat ->
  vget (sp_apply A (midpoint x1 x2)) p =
    (vget (sp_apply A x1) p + vget (sp_apply A x2) p) / 2.
Proof.
  intros Hl Hp. rewrite !sp_apply_get by assumption.
  unfold Rdiv. rewrite Rmult_comm, <- rsum_plus, <- rsum_scale.
  apply rsum_ext. intros j _. rewrite vget_midpoint by assumption. lra.
Qed.

(** Two minimisers leave the same residual: the residual half way between
    them would otherwise be smaller. *)
Lemma lsq_residual_unique A b x1 x2 :
  length b = sp_rows A -> is_lsq A b x1 -> is_lsq A b x2 ->
  forall p, (p < sp_rows A)%nat ->
    vget (sp_apply A x1) p - vget b p = vget (sp_apply A x2) p - vget b p.
Proof.
  intros Hb [Hl1 Hmin1] [Hl2 Hmin2].
  assert (Hl : length x1 = length x2) by lia.
  pose proof (Hmin1 (midpoint x1 x2) ltac:(rewrite length_midpoint; lia)) as H1.
  pose proof (Hmin2 (midpoint x1 x2) ltac:(rewrite length_midpoint; lia)) as H2.
  rewrite !normsq_residual in H1, H2 by assumption.
  pose (r1 := fun p => vget (sp_apply A x1) p - vget b p).
  pose (r2 := fun p => vget (sp_apply A x2) p - vget b p).
  pose (D := fun p => (r1 p - r2 p) * (r1 p - r2 p)).
  change (rsum (fun p => r1 p * r1 p) (sp_rows A) <=
          rsum (fun p => (vget (sp_apply A (midpoint x1 x2)) p - vget b p) *
                         (vget (sp_apply A (midpoint x1 x2)) p - vget b p)) (sp_rows A)) in H1.
  change (rsum (fun p => r2 p * r2 p) (sp_rows A) <=
          rsum (fun p => (vget (sp_apply A (midpoint x1 x2)) p - vget b p) *
                         (vget (sp_apply A (midpoint x1 x2)) p - vget b p)) (sp_rows A)) in H2.
  assert (Hmid : rsum (fun p => (vget (sp_apply A (midpoint x1 x2)) p - vget b p) *
                               (vget (sp_apply A (midpoint x1 x2)) p - vget b p)) (sp_rows A)
                 = / 2 * rsum (fun p => r1 p * r1 p) (sp_rows A)
                 + / 2 * rsum (fun p => r2 p * r2 p) (sp_rows A)
                 - / 4 * rsum D (sp_rows A)).
  { transitivity (rsum (fun p => / 2 * (r1 p * r1 p) + / 2 * (r2 p * r2 p) + - / 4 * D p)
                       (sp_rows A)).
    - apply rsum_ext. intros p Hp. rewrite sp_apply_midpoint by assumption.
      unfold D, r1, r2. lra.
    - rewrite (rsum_plus (fun p => / 2 * (r1 p * r1 p) + / 2 * (r2 p * r2 p))
                         (fun p => - / 4 * D p)).
      rewrite (rsum_plus (fun p => / 2 * (r1 p * r1 p)) (fun p => / 2 * (r2 p * r2 p))).
      rewrite (rsum_scale (/ 2) (fun p => r1 p * r1 p)).
      rewrite (rsum_scale (/ 2) (fun p => r2 p * r2 p)).
      rewrite (rsum_scale (- / 4) D). lra. }
  rewrite Hmid in H1, H2.
  assert (HD : rsum D (sp_rows A) = 0).
  { assert (0 <= rsum D (sp_rows A)) by (apply rsum_nonneg; intros; apply Rle_0_sqr). lra. }
  intros p Hp.
  pose proof (rsum_nonneg_zero D (sp_rows A) ltac:(intros; apply Rle_0_sqr) HD p Hp) as Hz.
  apply Rmult_integral in Hz. unfold r1, r2 in Hz. lra.
Qed.

Section Objective.

Variables (n : nat) (P : spmatrix) (idxs : list nat) (dv : ndarray).

Hypothesis dv_rows : nd_rows dv = n.
Hypothesis dv_cols : nd_cols dv = 3%nat.
Hypothesis P_wf : sp_wf P.
Hypothesis P_cols : sp_cols P = (3 * n)%nat.
Hypothesis idxs_in : Forall (fun idx => (idx < n)%nat) idxs.

Local Abbreviation k := (length idxs).

Lemma idxs_lookup i :
  (i < k)%nat -> idxs !! i = Some (nth i idxs 0%nat) /\ (nth i idxs 0%nat < n)%nat.
Proof.
  intros Hi. destruct (nth_lookup_or_length idxs i 0%nat) as [E|Hge]; [|lia].
  split; [exact E|].
  pose proof idxs_in as Hin. rewrite Forall_forall in Hin.
  apply Hin, list_elem_of_lookup. eauto.
Qed.

(** Row [c * k + i] of [Ik] reads the component [c] of vertex [idxs[i]]. *)
Lemma Ik_row Ik x c i :
  sp_cols Ik = (3 * n)%nat ->
  (forall bi bj i c, (bi < 3)%nat -> (bj < 3)%nat -> (i < k)%nat -> (c < n)%nat ->
     block_entry Ik k n bi bj i c =
       if decide (bi = bj /\ idxs !! i = Some c) then 1 else 0) ->
  (c < 3)%nat -> (i < k)%nat ->
  rsum (fun j => sp_get Ik (c * k + i) j * vget x j) (sp_cols Ik) =
    vget x (c * n + nth i idxs 0%nat).
Proof.
  intros Hc Hg Hc3 Hi. rewrite Hc, rsum_blocks.
  destruct (idxs_lookup i Hi) as [El Hlt].
  rewrite (rsum_ext _ (fun b => if decide (c = b) then vget x (c * n + nth i idxs 0%nat) else 0)).
  - destruct c as [|[|[|c]]]; try lia; cbv [rsum];
      repeat (case_decide; try lia); ring.
  - intros b Hb. destruct (decide (c = b)) as [<-|Hne].
    + rewrite (rsum_ext _ (fun j' => (if decide (idxs !! i = Some j') then 1 else 0)
                                     * vget x (c * n + j'))).
      * apply (rsum_pick (fun j' => idxs !! i = Some j') (fun j' => vget x (c * n + j')));
          [exact Hlt | exact El | intros j Hj; congruence].
      * intros j' Hj'.
        change (sp_get Ik (c * k + i) (c * n + j')) with (block_entry Ik k n c c i j').
        rewrite Hg by lia.
        repeat case_decide; try reflexivity; exfalso; intuition.
    + rewrite (rsum_ext _ (fun _ => 0)); [apply rsum_zero|].
      intros j' Hj'.
      change (sp_get Ik (c * k + i) (b * n + j')) with (block_entry Ik k n c b i j').
      rewrite Hg by lia. rewrite decide_False by intuition. ring.
Qed.

Variables (lmbd : R) (A : spmatrix) (b : list R).

Hypothesis system_ok : system n P idxs dv lmbd = Ok (A, b).

(** The residual of the system, row by row. *)
Lemma system_rows x :
  length b = sp_rows A /\ sp_rows A = (sp_rows P + 3 * k)%nat /\ sp_cols A = (3 * n)%nat /\
  (forall p, (p < sp_rows P)%nat ->
     vget (sp_apply A x) p - vget b p = vget (sp_apply P x) p) /\
  (forall c i, (c < 3)%nat -> (i < k)%nat ->
     vget (sp_apply A x) (sp_rows P + (c * k + i)) - vget b (sp_rows P + (c * k + i)) =
       lmbd * (vget x (c * n + nth i idxs 0%nat) - nd_get dv (nth i idxs 0%nat) c)).
Proof.
  destruct (system_spec P idxs dv lmbd n dv_rows dv_cols P_wf P_cols idxs_in)
    as (Ik & A' & t & EIk & Esys & (HrI & HcI & HgI) & (HrA & HcA & HtA & HbA)
        & (Hrt & Hct & Hgt)).
  rewrite system_ok in Esys. injection Esys as <- ->.
  assert (Hz : length (zeros (sp_rows P)) = sp_rows P) by apply repeat_length.
  assert (Hlt : length (flatten_F t) = (3 * k)%nat) by (rewrite flatten_F_length; lia).
  split; [|split; [exact HrA|split; [exact HcA|split]]].
  - unfold vscale. rewrite length_app, length_map, Hz. lia.
  - intros p Hp. rewrite vget_app_l, vget_zeros by lia.
    rewrite !sp_apply_get by lia. rewrite HcA, P_cols.
    rewrite (rsum_ext _ (fun j => sp_get P p j * vget x j)); [ring|].
    intros j Hj. now rewrite HtA.
  - intros c i Hc Hi.
    rewrite (vget_app_r _ _ (sp_rows P)) by exact Hz. rewrite vget_vscale.
    rewrite sp_apply_get by nia. rewrite HcA.
    rewrite (rsum_ext _ (fun j => lmbd * (sp_get Ik (c * k + i) j * vget x j))).
    2:{ intros j Hj. rewrite HbA by nia. ring. }
    rewrite rsum_scale. rewrite <- HcI. rewrite (Ik_row Ik x c i HcI HgI Hc Hi).
    rewrite <- Hrt at 1. rewrite flatten_F_get by lia. rewrite Hgt by assumption. ring.
Qed.

(** The objective is the Killing energy plus the squared weight times the
    constraint violation. *)
Lemma objective_split x du :
  reshape_F x n 3 = Ok du ->
  normsq (residual A b x) =
    normsq (sp_apply P x) + lmbd * lmbd * violation idxs dv du.
Proof.
  intros Hdu. destruct (system_rows x) as (Hb & HrA & HcA & Htop & Hbot).
  rewrite (normsq_residual A b x Hb), HrA, rsum_app. f_equal.
  - rewrite normsq_rsum, sp_apply_length. apply rsum_ext. intros p Hp. now rewrite Htop.
  - rewrite rsum_blocks. unfold violation. rewrite vsum_map_list.
    set (D := fun i c =>
                (nd_get du (nth i idxs 0%nat) c - nd_get dv (nth i idxs 0%nat) c) *
                (nd_get du (nth i idxs 0%nat) c - nd_get dv (nth i idxs 0%nat) c)).
    transitivity (rsum (fun i => rsum (fun c => lmbd * lmbd * D i c) 3) k).
    + rewrite (rsum_exchange (fun i c => lmbd * lmbd * D i c) 3 k).
      apply rsum_ext. intros c Hc. apply rsum_ext. intros i Hi.
      rewrite Hbot by assumption.
      destruct (idxs_lookup i Hi) as [_ Hlt]. unfold D.
      destruct (reshape_F_get x n 3 du (nth i idxs 0%nat) c Hdu Hlt Hc) as (_ & _ & _ & ->).
      ring.
    + rewrite <- rsum_scale. apply rsum_ext. intros i Hi.
      now rewrite rsum_scale.
Qed.

(** Two minimisers of one system violate the constraints equally. *)
Lemma minimisers_same_violation x1 x2 du1 du2 :
  lmbd <> 0 -> is_lsq A b x1 -> is_lsq A b x2 ->
  reshape_F x1 n 3 = Ok du1 -> reshape_F x2 n 3 = Ok du2 ->
  violation idxs dv du1 = violation idxs dv du2.
Proof.
  intros Hl H1 H2 Hd1 Hd2.
  destruct (system_rows x1) as (Hb & HrA & _ & Htop1 & _).
  destruct (system_rows x2) as (_ & _ & _ & Htop2 & _).
  pose proof (lsq_residual_unique A b x1 x2 Hb H1 H2) as Hres.
  assert (HF : normsq (residual A b x1) = normsq (residual A b x2)).
  { rewrite !normsq_residual by assumption. apply rsum_ext. intros p Hp.
    now rewrite Hres. }
  assert (HE : normsq (sp_apply P x1) = normsq (sp_apply P x2)).
  { rewrite !normsq_rsum, !sp_apply_length. apply rsum_ext. intros p Hp.
    rewrite <- Htop1, <- Htop2 by assumption. now rewrite Hres by lia. }
  rewrite (objective_split x1 du1 Hd1), (objective_split x2 du2 Hd2), HE in HF.
  apply Rplus_eq_reg_l in HF.
  apply Rmult_eq_reg_l in HF; [exact HF|]. now apply Rmult_integral_contrapositive.
Qed.

End Objective.

(** C9. For one mesh and one set of constraints, let [x1] minimise the
    objective built with the weight [l1] and [x2] the one built with [l2],
    [0 < l1 <= l2].  Then the constraint violation of the displacement read
    from [x2] is at most that of the displacement read from [x1]. *)
Theorem violation_monotone n P idxs dv l1 l2 A1 b1 A2 b2 x1 x2 :
  nd_rows dv = n -> nd_cols dv = 3%nat ->
  sp_wf P -> sp_cols P = (3 * n)%nat ->
  Forall (fun idx => (idx < n)%nat) idxs ->
  0 < l1 <= l2 ->
  system n P idxs dv l1 = Ok (A1, b1) ->
  system n P idxs dv l2 = Ok (A2, b2) ->
  is_lsq A1 b1 x1 -> is_lsq A2 b2 x2 ->
  exists du1 du2,
    reshape_F x1 n 3 = Ok du1 /\ reshape_F x2 n 3 = Ok du2 /\
    violation idxs dv du2 <= violation idxs dv du1.
Proof.
  intros Hdr Hdc HwP HcP Hall [Hpos Hle] E1 E2 H1 H2.
  destruct (system_rows n P idxs dv Hdr Hdc HwP HcP Hall l1 A1 b1 E1 x1) as (_ & _ & Hc1 & _).
  destruct (system_rows n P idxs dv Hdr Hdc HwP HcP Hall l2 A2 b2 E2 x2) as (_ & _ & Hc2 & _).
  assert (Hx1 : length x1 = (n * 3)%nat) by (destruct H1; lia).
  assert (Hx2 : length x2 = (n * 3)%nat) by (destruct H2; lia).
  destruct (reshape_F_total x1 n 3 Hx1) as [du1 Hd1].
  destruct (reshape_F_total x2 n 3 Hx2) as [du2 Hd2].
  exists du1, du2. split; [exact Hd1|]. split; [exact Hd2|].
  destruct (Rle_lt_or_eq_dec l1 l2 Hle) as [Hlt| ->].
  - destruct H1 as [_ Hmin1]. destruct H2 as [_ Hmin2].
    pose proof (Hmin1 x2 ltac:(lia)) as I1. pose proof (Hmin2 x1 ltac:(lia)) as I2.
    rewrite (objective_split n P idxs dv Hdr Hdc HwP HcP Hall l1 A1 b1 E1 x1 du1 Hd1) in I1.
    rewrite (objective_split n P idxs dv Hdr Hdc HwP HcP Hall l1 A1 b1 E1 x2 du2 Hd2) in I1.
    rewrite (objective_split n P idxs dv Hdr Hdc HwP HcP Hall l2 A2 b2 E2 x2 du2 Hd2) in I2.
    rewrite (objective_split n P idxs dv Hdr Hdc HwP HcP Hall l2 A2 b2 E2 x1 du1 Hd1) in I2.
    assert (Hw : 0 < l2 * l2 - l1 * l1) by nra.
    set (V1 := violation idxs dv du1) in *. set (V2 := violation idxs dv du2) in *.
    assert (Hprod : (l2 * l2 - l1 * l1) * (V2 - V1) <= 0) by lra.
    destruct (Rle_or_lt V2 V1) as [Hok|Hbad]; [exact Hok|]. exfalso.
    assert (0 < (l2 * l2 - l1 * l1) * (V2 - V1)) by (apply Rmult_lt_0_compat; lra). lra.
  - rewrite E1 in E2. injection E2 as <- <-.
    apply Req_le. symmetry.
    apply (minimisers_same_violation n P idxs dv Hdr Hdc HwP HcP Hall l2 A1 b1 E1 x1 x2 du1 du2);
      try assumption. lra.
Qed.

(** ** No constraints *)

Lemma sp_apply_zeros M N : normsq (sp_apply M (zeros N)) = 0.
Proof.
  rewrite normsq_rsum, sp_apply_length.
  rewrite (rsum_ext _ (fun _ => 0)); [apply rsum_zero|].
  intros p Hp. rewrite sp_apply_get by assumption.
  rewrite (rsum_ext _ (fun _ => 0)), rsum_zero; [ring|].
  intros j _. rewrite vget_zeros. ring.
Qed.

Lemma normsq_zeros N : normsq (zeros N) = 0.
Proof.
  rewrite normsq_rsum. rewrite (rsum_ext _ (fun _ => 0)); [apply rsum_zero|].
  intros p _. rewrite vget_zeros. ring.
Qed.

Lemma normsq_zero_get x : normsq x = 0 -> forall p, vget x p = 0.
Proof.
  intros H p. rewrite normsq_rsum in H.
  destruct (Nat.lt_ge_cases p (length x)) as [Hp|Hp].
  - pose proof (rsum_nonneg_zero _ _ ltac:(intros; apply Rle_0_sqr) H p Hp) as Hz.
    apply Rmult_integral in Hz. tauto.
  - unfold vget. now apply nth_overflow.
Qed.

(** C8. Without constraints the system is [P x = 0] in the least-squares
    sense: [A] is [P] and [b] is zero.  The zero vector is a least-norm
    minimiser, and every least-norm minimiser is a rigid motion of the
    vertices (a translation plus an infinitesimal rotation, six numbers) with
    Killing energy 0. *)
Theorem unconstrained_solution_rigid v P dv lmbd m n :
  nd_rows v = n ->
  nd_rows dv = n -> nd_cols dv = 3%nat ->
  sp_wf P -> sp_rows P = (6 * m)%nat -> sp_cols P = (3 * n)%nat ->
  exists A,
    system n P [] dv lmbd = Ok (A, zeros (6 * m)) /\
    (sp_rows A = (6 * m)%nat /\ sp_cols A = (3 * n)%nat /\
     forall i j, (i < 6 * m)%nat -> (j < 3 * n)%nat -> sp_get A i j = sp_get P i j) /\
    is_min_norm_lsq A (zeros (6 * m)) (zeros (3 * n)) /\
    forall x, is_min_norm_lsq A (zeros (6 * m)) x ->
      exists du, reshape_F x n 3 = Ok du /\
        rigid_motion v du /\ normsq (sp_apply P x) = 0.
Proof.
  intros Hvr Hdr Hdc HwP HrP HcP.
  assert (Hall : Forall (fun idx => (idx < n)%nat) []) by constructor.
  destruct (system_spec P [] dv lmbd n Hdr Hdc HwP HcP Hall)
    as (Ik & A & t & EIk & Esys & _ & (HrA & HcA & HtA & _) & (Hrt & _ & _)).
  simpl in HrA, Hrt.
  assert (Ht : flatten_F t = []).
  { apply length_zero_iff_nil. rewrite flatten_F_length, Hrt. lia. }
  rewrite Ht, HrP in Esys. simpl vscale in Esys. rewrite app_nil_r in Esys.
  rewrite HrP in *.
  exists A. split; [exact Esys|]. split.
  { split; [lia|]. split; [exact HcA|]. exact HtA. }
  assert (Hobj : forall y, length y = (3 * n)%nat ->
            normsq (residual A (zeros (6 * m)) y) = normsq (sp_apply P y)).
  { intros y Hy. destruct (reshape_F_total y n 3 ltac:(lia)) as [du Hdu].
    rewrite (objective_split n P [] dv Hdr Hdc HwP HcP Hall lmbd A _ Esys y du Hdu).
    unfold violation. simpl. ring. }
  assert (Hz : is_lsq A (zeros (6 * m)) (zeros (3 * n))).
  { split; [unfold zeros; rewrite repeat_length; lia|].
    intros y Hy. rewrite Hobj by (unfold zeros; now rewrite repeat_length).
    rewrite sp_apply_zeros. apply normsq_nonneg. }
  split.
  { split; [exact Hz|]. intros y _. rewrite normsq_zeros. apply normsq_nonneg. }
  intros x [[Hlx Hmin] Hnorm].
  assert (Hx0 : normsq x = 0).
  { specialize (Hnorm _ Hz). rewrite normsq_zeros in Hnorm.
    pose proof (normsq_nonneg x). lra. }
  destruct (reshape_F_total x n 3 ltac:(lia)) as [du Hdu].
  exists du. split; [exact Hdu|]. split.
  - exists 0, 0, 0, 0, 0, 0. intros i Hi. rewrite Hvr in Hi.
    assert (Hg : forall c, (c < 3)%nat -> nd_get du i c = 0).
    { intros c Hc.
      destruct (reshape_F_get x n 3 du i c Hdu Hi Hc) as (_ & _ & _ & ->).
      now apply normsq_zero_get. }
    rewrite !Hg by lia. repeat split; ring.
  - specialize (Hmin (zeros (3 * n)) ltac:(unfold zeros; rewrite repeat_length; lia)).
    rewrite !Hobj in Hmin by (first [lia | unfold zeros; now rewrite repeat_length]).
    rewrite sp_apply_zeros in Hmin. pose proof (normsq_nonneg (sp_apply P x)). lra.
Qed.

(** * The statements on the example mesh *)

Ltac by_computation := apply (bool_decide_unpack _); vm_compute; exact I.

Lemma ex_idxs_in : Forall (fun idx => (idx < 2)%nat) ex_idxs.
Proof. repeat constructor. Defined.

Lemma ex_lsqr_length istop A b : length (lsqr_x (ex_lsqr istop A b)) = sp_cols A.
Proof. simpl. apply repeat_length. Defined.

(** Witness for C1: the Killing-energy operator of the example gradient. *)
Lemma killing_operator_blocks_witness :
  exists P, killing_operator ex_Gx ex_Gy ex_Gz = Ok P /\
    sp_rows P = 6%nat /\ sp_cols P = 6%nat /\
    block_entry P 1 2 0 0 0 1 = 2 * 1 /\
    block_entry P 1 2 3 0 0 1 = sqrt 2 * 2 /\
    block_entry P 1 2 3 1 0 0 = sqrt 2 * -1 /\
    block_entry P 1 2 5 0 0 1 = 0.
Proof.
  destruct (killing_operator_blocks ex_Gx ex_Gy ex_Gz 1 2)
    as (P & E & Hr & Hc & Hb); try reflexivity; try by_computation.
  exists P. split; [exact E|]. split; [exact Hr|]. split; [exact Hc|].
  destruct (Hb 0%nat 0%nat ltac:(lia) ltac:(lia)) as (_ & _ & _ & (_ & H31 & _) & _ & _).
  destruct (Hb 0%nat 1%nat ltac:(lia) ltac:(lia))
    as ((H00 & _ & _) & _ & _ & (H30 & _ & _) & _ & (H50 & _ & _)).
  repeat split; assumption.
Defined.

(** Witness for C3: the vertex array of the example. *)
Lemma flatten_reshape_round_trip_witness :
  reshape_F (flatten_F ex_v) 2 3 = Ok ex_v.
Proof.
  apply (flatten_reshape_round_trip ex_v 2); reflexivity.
Defined.

(** Witness for C4: vertex 1 is listed twice and has two rows. *)
Lemma constraint_operator_blocks_witness :
  exists Ik, constraint_operator 2 ex_idxs = Ok Ik /\
    sp_rows Ik = 6%nat /\ sp_cols Ik = 6%nat /\
    block_entry Ik 2 2 0 0 0 1 = 1 /\ block_entry Ik 2 2 0 0 1 1 = 1 /\
    block_entry Ik 2 2 0 0 0 0 = 0 /\ block_entry Ik 2 2 0 1 0 1 = 0.
Proof.
  destruct (constraint_operator_blocks 2 ex_idxs ex_idxs_in) as (Ik & E & Hr & Hc & Hb).
  exists Ik. split; [exact E|]. split; [exact Hr|]. split; [exact Hc|].
  repeat split.
  - exact (Hb 0%nat 0%nat 0%nat 1%nat ltac:(lia) ltac:(lia) ltac:(simpl; lia) ltac:(lia)).
  - exact (Hb 0%nat 0%nat 1%nat 1%nat ltac:(lia) ltac:(lia) ltac:(simpl; lia) ltac:(lia)).
  - exact (Hb 0%nat 0%nat 0%nat 0%nat ltac:(lia) ltac:(lia) ltac:(simpl; lia) ltac:(lia)).
  - exact (Hb 0%nat 1%nat 0%nat 1%nat ltac:(lia) ltac:(lia) ltac:(simpl; lia) ltac:(lia)).
Defined.

(** Witness for C5: one face, so one energy. *)
Lemma face_energy_entries_witness :
  exists e, face_energy 1 ex_P ex_x2 = Ok e /\ length e = 1%nat /\ 0 <= vget e 0.
Proof.
  destruct (face_energy_entries 1 2 ex_P ex_x2) as (e & E & Hl & He);
    try reflexivity; try lia.
  exists e. split; [exact E|]. split; [exact Hl|].
  exact (proj2 (He 0%nat ltac:(lia))).
Defined.

(** Counterexample to C5 as stated: for a mesh without faces the operator is
    built, with no rows, and the evaluator raises [ValueError] at the reshape
    instead of returning the empty array. *)
Lemma face_energy_empty_mesh :
  let G := csr_matrix 0 1 in
  exists P, killing_operator G G G = Ok P /\
    sp_rows P = 0%nat /\ sp_cols P = 3%nat /\
    face_energy 0 P [0; 0; 0] = Raise ValueError /\
    ~ exists e, face_energy 0 P [0; 0; 0] = Ok e /\ length e = 0%nat.
Proof.
  intros G. unfold killing_operator. eval_bmat.
  eexists. split; [reflexivity|]. split; [reflexivity|]. split; [reflexivity|].
  rewrite face_energy_no_face. split; [reflexivity|].
  intros (e & E & _). discriminate E.
Qed.

(** Witness for C6: vertex 2 does not exist. *)
Lemma solve_akvf_bad_constraint_witness :
  solve_akvf (ex_lsqr 1) ex_v ex_P [0; 2]%nat ex_dv 100 [] = (Raise IndexError, []).
Proof.
  apply (solve_akvf_bad_constraint (ex_lsqr 1) ex_v ex_P [0; 2]%nat ex_dv 100 []).
  right. left. simpl. lia.
Defined.

(** Counterexample to C6 as stated: the error that comes out for a
    constrained vertex out of range is the library's [IndexError]; no
    [InvalidConstraintError] is raised. *)
Lemma invalid_constraint_is_index_error :
  let outcome := solve_akvf (ex_lsqr 1) ex_v ex_P [0; 2]%nat ex_dv 100 [] in
  outcome.1 = Raise "IndexError" /\ outcome.1 <> Raise "InvalidConstraintError".
Proof.
  intros outcome.
  assert (E : outcome = (Raise IndexError, [])).
  { unfold outcome, solve_akvf, system, lift, mbind, M_bind.
    rewrite constraint_operator_out; [reflexivity|]. right. left. simpl. lia. }
  rewrite E. simpl. split; [reflexivity|]. discriminate.
Qed.

(** Counterexample to C7 as stated: a solver that stops at its iteration
    limit (stop code 7) has its iterate returned as the displacement, and
    nothing is raised. *)
Lemma stalled_solver_not_reported :
  let outcome := solve_akvf (ex_lsqr 7) ex_v ex_P ex_idxs ex_dv 100 [] in
  (forall A b, lsqr_istop (ex_lsqr 7 A b) = 7%nat) /\
  outcome.1 = Ok (NdArray 2 3 (zeros 6)) /\
  outcome.1 <> Raise "NumericalInstabilityError".
Proof.
  intros outcome. split; [reflexivity|].
  assert (E : outcome.1 = Ok (NdArray 2 3 (zeros 6))) by (vm_compute; reflexivity).
  rewrite E. split; [reflexivity|]. discriminate.
Qed.

(** Witness for C8: the example without constraints. *)
Lemma unconstrained_solution_rigid_witness :
  exists A,
    system 2 ex_P [] ex_dv 100 = Ok (A, zeros 6) /\
    is_min_norm_lsq A (zeros 6) (zeros 6) /\
    forall x, is_min_norm_lsq A (zeros 6) x ->
      exists du, reshape_F x 2 3 = Ok du /\
        rigid_motion ex_v du /\ normsq (sp_apply ex_P x) = 0.
Proof.
  destruct (unconstrained_solution_rigid ex_v ex_P ex_dv 100 1 2)
    as (A & E & _ & Hz & Hall); try reflexivity; try by_computation.
  exists A. split; [exact E|]. split; [exact Hz|]. exact Hall.
Defined.

(** On the example both translations leave no residual, for every weight. *)
Lemma ex_is_lsq lmbd x :
  x = ex_x1 \/ x = ex_x2 ->
  is_lsq (ex_sys lmbd).1 (ex_sys lmbd).2 x.
Proof.
  intros Hx. split; [destruct Hx as [-> | ->]; reflexivity|].
  intros y _.
  assert (E : normsq (residual (ex_sys lmbd).1 (ex_sys lmbd).2 x) = 0).
  { destruct Hx as [-> | ->]; vm_compute; ring. }
  rewrite E. apply normsq_nonneg.
Defined.

(** Witness for C9: the example with the weights 1 and 100. *)
Lemma violation_monotone_witness :
  exists du1 du2,
    reshape_F ex_x1 2 3 = Ok du1 /\ reshape_F ex_x2 2 3 = Ok du2 /\
    violation ex_idxs ex_dv du2 <= violation ex_idxs ex_dv du1.
Proof.
  apply (violation_monotone 2 ex_P ex_idxs ex_dv 1 100
           (ex_sys 1).1 (ex_sys 1).2 (ex_sys 100).1 (ex_sys 100).2 ex_x1 ex_x2);
    try reflexivity; try by_computation.
  - lra.
  - apply ex_is_lsq. now left.
  - apply ex_is_lsq. now right.
Defined.

(** Witness for C10: the energy of the face of the example. *)
Lemma face_energy_sum_witness :
  exists e, face_energy 1 ex_P ex_x2 = Ok e /\
    length e = 1%nat /\
    (forall i, (i < 1)%nat ->
       vget e i = rsum (fun j => vget (sp_apply ex_P ex_x2) (j * 1 + i) *
                                 vget (sp_apply ex_P ex_x2) (j * 1 + i)) 6) /\
    vsum e = normsq (sp_apply ex_P ex_x2).
Proof.
  destruct (face_energy_sum 1 2 ex_P ex_x2) as [Hex Hsum]; try reflexivity.
  destruct (Hex ltac:(lia)) as [e E].
  exists e. split; [exact E|]. exact (Hsum e E).
Defined.

(** * More of the notebook *)

(** ** What the system minimises *)

(** Two lists of [h] blocks of [w] entries that agree entry by entry. *)
Lemma blocks_ext (l1 l2 : list R) h w :
  length l1 = (h * w)%nat -> length l2 = (h * w)%nat ->
  (forall j i, (j < h)%nat -> (i < w)%nat -> vget l1 (j * w + i) = vget l2 (j * w + i)) ->
  l1 = l2.
Proof.
  intros H1 H2 Hg. apply (nth_ext _ _ 0 0); [lia|].
  intros p Hp. rewrite H1 in Hp.
  assert (Hw : (0 < w)%nat) by (destruct w; lia).
  pose proof (Nat.div_mod_eq p w) as Hdm.
  pose proof (Nat.mod_upper_bound p w ltac:(lia)) as Hmod.
  assert (Hdiv : (p / w < h)%nat) by (apply Nat.Div0.div_lt_upper_bound; lia).
  replace p with ((p / w) * w + p mod w)%nat by lia.
  now apply Hg.
Qed.

Lemma nth_in_range n (idxs : list nat) i :
  Forall (fun idx => (idx < n)%nat) idxs -> (i < length idxs)%nat ->
  idxs !! i = Some (nth i idxs 0%nat) /\ (nth i idxs 0%nat < n)%nat.
Proof.
  intros Hall Hi.
  destruct (nth_lookup_or_length idxs i 0%nat) as [E|Hge]; [|lia].
  split; [exact E|]. rewrite Forall_forall in Hall.
  apply Hall, list_elem_of_lookup. eauto.
Qed.

(** X1. The objective of the system that the cell hands to the solver is the
    Killing energy plus the constraint violation weighted by the square of
    [lmbd]: the norm of [A x - b] squares the weight that multiplies the
    rows of [Ik] and the targets. *)
Theorem objective_energy_plus_squared_weight n P idxs dv lmbd A b x :
  nd_rows dv = n -> nd_cols dv = 3%nat ->
  sp_wf P -> sp_cols P = (3 * n)%nat ->
  Forall (fun idx => (idx < n)%nat) idxs ->
  system n P idxs dv lmbd = Ok (A, b) ->
  length x = (3 * n)%nat ->
  exists du, reshape_F x n 3 = Ok du /\
    normsq (residual A b x) =
      normsq (sp_apply P x) + lmbd * lmbd * violation idxs dv du.
Proof.
  intros Hdr Hdc HwP HcP Hall Esys Hx.
  destruct (reshape_F_total x n 3 ltac:(lia)) as [du Hdu].
  exists du. split; [exact Hdu|].
  exact (objective_split n P idxs dv Hdr Hdc HwP HcP Hall lmbd A b Esys x du Hdu).
Qed.

(** Witness for X1. *)
Lemma objective_energy_plus_squared_weight_witness :
  exists du, reshape_F ex_x2 2 3 = Ok du /\
    normsq (residual (ex_sys 100).1 (ex_sys 100).2 ex_x2) =
      normsq (sp_apply ex_P ex_x2) + 100 * 100 * violation ex_idxs ex_dv du.
Proof.
  apply (objective_energy_plus_squared_weight 2 ex_P ex_idxs ex_dv 100);
    try reflexivity; try by_computation.
Defined.

(** ** The constraint operator as a map *)

(** X2. Applied to a displacement field flattened in column-block order, the
    constraint operator gives the displacements of the constrained vertices,
    flattened in the same order: [Ik @ du.flatten('F') = du[idxs].flatten('F')]. *)
Theorem constraint_operator_extracts n idxs du :
  nd_rows du = n -> nd_cols du = 3%nat ->
  Forall (fun idx => (idx < n)%nat) idxs ->
  exists Ik t,
    constraint_operator n idxs = Ok Ik /\
    take_rows du idxs = Ok t /\
    sp_matvec Ik (flatten_F du) = Ok (flatten_F t).
Proof.
  intros Hr Hc Hall.
  destruct (constraint_operator_spec n idxs Hall) as (Ik & EIk & HrI & HcI & HwI & HgI).
  destruct (take_rows_spec du idxs) as (t & Et & Hrt & Hct & Hgt); [now rewrite Hr|].
  exists Ik, t. split; [exact EIk|]. split; [exact Et|].
  unfold sp_matvec.
  assert (Hl : length (flatten_F du) = sp_cols Ik) by (rewrite flatten_F_length; lia).
  apply Nat.eqb_eq in Hl. rewrite Hl. f_equal.
  apply (blocks_ext _ _ 3 (length idxs)).
  - rewrite sp_apply_length. lia.
  - rewrite flatten_F_length. lia.
  - intros c i Hc3 Hi. rewrite sp_apply_get by nia.
    rewrite (Ik_row n (csr_matrix 0 (3 * n)) idxs du Hr Hc eq_refl Hall Ik _ c i HcI HgI Hc3 Hi).
    destruct (nth_in_range n idxs i Hall Hi) as [_ Hlt].
    rewrite <- Hr at 1. rewrite flatten_F_get by lia.
    rewrite <- Hrt. rewrite flatten_F_get by lia.
    symmetry. apply Hgt; lia.
Qed.

(** Witness for X2. *)
Lemma constraint_operator_extracts_witness :
  exists Ik t,
    constraint_operator 2 ex_idxs = Ok Ik /\
    take_rows ex_v ex_idxs = Ok t /\
    sp_matvec Ik (flatten_F ex_v) = Ok (flatten_F t).
Proof.
  apply (constraint_operator_extracts 2 ex_idxs ex_v); try reflexivity.
  exact ex_idxs_in.
Defined.

(** ** When the energy evaluator fails *)

(** X3. The evaluator returns, an array with one entry per face, exactly when
    the vector has as many entries as [P] has columns, there is a face, and
    the number of faces divides the number of rows of [P]; in every other
    case it raises [ValueError]. *)
Theorem face_energy_returns_iff m P x :
  let fits := length x = sp_cols P /\ m <> 0%nat /\ sp_rows P mod m = 0%nat in
  (fits -> exists e, face_energy m P x = Ok e /\ length e = m) /\
  (~ fits -> face_energy m P x = Raise ValueError).
Proof.
  intros fits. unfold fits, face_energy, sp_matvec.
  destruct (Nat.eqb_spec (length x) (sp_cols P)) as [Hx|Hx]; simpl mbind.
  2:{ split; [intros (? & _); contradiction | reflexivity]. }
  unfold reshape_F_infer, reshape_F. rewrite length_square, sp_apply_length.
  destruct (Nat.eqb_spec m 0) as [Hm|Hm]; simpl.
  { split; [intros (_ & ? & _); contradiction | reflexivity]. }
  destruct (Nat.eqb_spec (sp_rows P mod m) 0) as [Hd|Hd]; simpl.
  2:{ split; [intros (_ & _ & ?); contradiction | reflexivity]. }
  assert (E : sp_rows P = (m * (sp_rows P / m))%nat) by (apply Nat.Div0.div_exact; exact Hd).
  apply Nat.eqb_eq in E. rewrite E. simpl. split.
  - intros _. eexists. split; [reflexivity|].
    unfold sum_last. simpl. now rewrite length_map, length_seq.
  - intros Hn. exfalso. apply Hn. auto.
Qed.

(** ** Translations *)

Lemma uniform_field_spec n t :
  length t = 3%nat ->
  exists U, uniform_field n t = Ok U /\
    nd_rows U = n /\ nd_cols U = 3%nat /\ nd_wf U /\
    forall i c, (i < n)%nat -> (c < 3)%nat -> nd_get U i c = vget t c.
Proof.
  intros Ht. unfold uniform_field, broadcast_row. simpl nd_cols. rewrite Ht. simpl.
  eexists. split; [reflexivity|]. split; [reflexivity|]. split; [reflexivity|]. split.
  - unfold nd_wf. simpl.
    now rewrite (length_grid (fun i j => nd_get (nd_zeros n 3) i j + vget t j) 3 n).
  - intros i c Hi Hc. unfold nd_get at 1. simpl nd_cols. simpl nd_data. unfold vget at 1.
    rewrite (nth_grid (fun i j => nd_get (nd_zeros n 3) i j + vget t j) 3 n) by assumption.
    simpl. unfold nd_get. simpl. rewrite vget_zeros. ring.
Qed.

(** Every block of the Killing-energy operator is a multiple of a gradient
    block. *)
Lemma killing_block_multiple Gx Gy Gz m n P :
  (forall r c, (r < m)%nat -> (c < n)%nat ->
      let gx := sp_get Gx r c in
      let gy := sp_get Gy r c in
      let gz := sp_get Gz r c in
      (block_entry P m n 0 0 r c = 2 * gx /\
       block_entry P m n 0 1 r c = 0 /\
       block_entry P m n 0 2 r c = 0) /\
      (block_entry P m n 1 0 r c = 0 /\
       block_entry P m n 1 1 r c = 2 * gy /\
       block_entry P m n 1 2 r c = 0) /\
      (block_entry P m n 2 0 r c = 0 /\
       block_entry P m n 2 1 r c = 0 /\
       block_entry P m n 2 2 r c = 2 * gz) /\
      (block_entry P m n 3 0 r c = sqrt 2 * gy /\
       block_entry P m n 3 1 r c = sqrt 2 * gx /\
       block_entry P m n 3 2 r c = 0) /\
      (block_entry P m n 4 0 r c = sqrt 2 * gz /\
       block_entry P m n 4 1 r c = 0 /\
       block_entry P m n 4 2 r c = sqrt 2 * gx) /\
      (block_entry P m n 5 0 r c = 0 /\
       block_entry P m n 5 1 r c = sqrt 2 * gz /\
       block_entry P m n 5 2 r c = sqrt 2 * gy)) ->
  forall bi bj, (bi < 6)%nat -> (bj < 3)%nat ->
    exists coef G, (G = Gx \/ G = Gy \/ G = Gz) /\
      forall r c, (r < m)%nat -> (c < n)%nat ->
        block_entry P m n bi bj r c = coef * sp_get G r c.
Proof.
  intros Hb bi bj Hbi Hbj.
  assert (Hz : forall a g : R, a = 0 -> a = 0 * g) by (intros; subst; ring).
  destruct bi as [|[|[|[|[|[|bi]]]]]]; try lia;
    destruct bj as [|[|[|bj]]]; try lia;
    first
      [ exists 2, Gx; split; [tauto|]; intros r c Hr Hc;
        destruct (Hb r c Hr Hc) as ((?&?&?)&(?&?&?)&(?&?&?)&(?&?&?)&(?&?&?)&(?&?&?)); assumption
      | exists 2, Gy; split; [tauto|]; intros r c Hr Hc;
        destruct (Hb r c Hr Hc) as ((?&?&?)&(?&?&?)&(?&?&?)&(?&?&?)&(?&?&?)&(?&?&?)); assumption
      | exists 2, Gz; split; [tauto|]; intros r c Hr Hc;
        destruct (Hb r c Hr Hc) as ((?&?&?)&(?&?&?)&(?&?&?)&(?&?&?)&(?&?&?)&(?&?&?)); assumption
      | exists (sqrt 2), Gx; split; [tauto|]; intros r c Hr Hc;
        destruct (Hb r c Hr Hc) as ((?&?&?)&(?&?&?)&(?&?&?)&(?&?&?)&(?&?&?)&(?&?&?)); assumption
      | exists (sqrt 2), Gy; split; [tauto|]; intros r c Hr Hc;
        destruct (Hb r c Hr Hc) as ((?&?&?)&(?&?&?)&(?&?&?)&(?&?&?)&(?&?&?)&(?&?&?)); assumption
      | exists (sqrt 2), Gz; split; [tauto|]; intros r c Hr Hc;
        destruct (Hb r c Hr Hc) as ((?&?&?)&(?&?&?)&(?&?&?)&(?&?&?)&(?&?&?)&(?&?&?)); assumption
      | exists 0, Gx; split; [tauto|]; intros r c Hr Hc;
        destruct (Hb r c Hr Hc) as ((?&?&?)&(?&?&?)&(?&?&?)&(?&?&?)&(?&?&?)&(?&?&?));
        apply Hz; assumption ].
Qed.

Lemma map_const_zeros (f : nat -> R) N :
  (forall i, (i < N)%nat -> f i = 0) -> map f (seq 0 N) = zeros N.
Proof.
  intros Hf. apply (nth_ext _ _ 0 0).
  - unfold zeros. now rewrite length_map, length_seq, repeat_length.
  - intros p Hp. rewrite length_map, length_seq in Hp.
    change (vget (map f (seq 0 N)) p = vget (zeros N) p).
    rewrite vget_map_seq, vget_zeros by assumption. now apply Hf.
Qed.

(** The operator built from gradient blocks that give 0 on constants gives 0
    on every translation. *)
Lemma killing_apply_translation Gx Gy Gz m n P t U :
  sp_wf Gx -> sp_wf Gy -> sp_wf Gz ->
  sp_rows Gx = m -> sp_cols Gx = n ->
  sp_rows Gy = m -> sp_cols Gy = n ->
  sp_rows Gz = m -> sp_cols Gz = n ->
  kills_constants Gx -> kills_constants Gy -> kills_constants Gz ->
  length t = 3%nat ->
  killing_operator Gx Gy Gz = Ok P ->
  uniform_field n t = Ok U ->
  sp_apply P (flatten_F U) = zeros (6 * m).
Proof.
  intros Hwx Hwy Hwz Hrx Hcx Hry Hcy Hrz Hcz Hkx Hky Hkz Ht EP EU.
  destruct (killing_operator_spec Gx Gy Gz m n) as (P' & EP' & HrP & HcP & HwP & Hb);
    try assumption.
  rewrite EP in EP'. injection EP' as <-.
  destruct (uniform_field_spec n t Ht) as (U' & EU' & HrU & HcU & HwU & HgU).
  rewrite EU in EU'. injection EU' as <-.
  pose proof (killing_block_multiple Gx Gy Gz m n P Hb) as Hblk.
  unfold sp_apply. rewrite HrP, HcP. apply map_const_zeros. intros p Hp.
  assert (Hm : (0 < m)%nat) by lia.
  pose proof (Nat.div_mod_eq p m) as Hdm.
  pose proof (Nat.mod_upper_bound p m ltac:(lia)) as Hmod.
  assert (Hdiv : (p / m < 6)%nat) by (apply Nat.Div0.div_lt_upper_bound; lia).
  set (bi := (p / m)%nat) in *. set (r := (p mod m)%nat) in *.
  replace p with (bi * m + r)%nat by lia.
  rewrite rsum_blocks.
  rewrite (rsum_ext _ (fun _ => 0)); [apply rsum_zero|].
  intros bj Hbj.
  destruct (Hblk bi bj Hdiv Hbj) as (coef & G & HG & Hent).
  rewrite (rsum_ext _ (fun c => (coef * vget t bj) * sp_get G r c)).
  - rewrite rsum_scale.
    assert (Hk : rsum (sp_get G r) n = 0).
    { destruct HG as [-> | [-> | ->]].
      - rewrite <- Hcx. apply (Hkx r). lia.
      - rewrite <- Hcy. apply (Hky r). lia.
      - rewrite <- Hcz. apply (Hkz r). lia. }
    rewrite Hk. ring.
  - intros c Hc.
    change (sp_get P (bi * m + r) (bj * n + c)) with (block_entry P m n bi bj r c).
    rewrite Hent by assumption.
    rewrite <- HrU at 1. rewrite flatten_F_get by lia. rewrite HgU by assumption. ring.
Qed.

(** X4. A translation has no Killing energy: when the rows of the gradient
    blocks add up to 0 (constant fields have no gradient), the operator built
    from them gives 0 on the field that moves every vertex by the same [t],
    and the evaluator gives the energy 0 on every face. *)
Theorem translation_has_no_energy Gx Gy Gz m n t :
  sp_wf Gx -> sp_wf Gy -> sp_wf Gz ->
  sp_rows Gx = m -> sp_cols Gx = n ->
  sp_rows Gy = m -> sp_cols Gy = n ->
  sp_rows Gz = m -> sp_cols Gz = n ->
  kills_constants Gx -> kills_constants Gy -> kills_constants Gz ->
  length t = 3%nat ->
  exists P U,
    killing_operator Gx Gy Gz = Ok P /\ uniform_field n t = Ok U /\
    sp_apply P (flatten_F U) = zeros (6 * m) /\
    ((0 < m)%nat -> face_energy m P (flatten_F U) = Ok (zeros m)).
Proof.
  intros Hwx Hwy Hwz Hrx Hcx Hry Hcy Hrz Hcz Hkx Hky Hkz Ht.
  destruct (killing_operator_spec Gx Gy Gz m n) as (P & EP & HrP & HcP & HwP & Hb);
    try assumption.
  destruct (uniform_field_spec n t Ht) as (U & EU & HrU & HcU & HwU & HgU).
  pose proof (killing_apply_translation Gx Gy Gz m n P t U Hwx Hwy Hwz Hrx Hcx Hry Hcy
                Hrz Hcz Hkx Hky Hkz Ht EP EU) as Hz.
  exists P, U. split; [exact EP|]. split; [exact EU|]. split; [exact Hz|].
  intros Hm. rewrite (face_energy_spec m P (flatten_F U) Hm HrP)
    by (rewrite flatten_F_length; lia).
  f_equal. apply map_const_zeros. intros i Hi. rewrite Hz.
  rewrite (rsum_ext _ (fun _ => 0)); [apply rsum_zero|].
  intros j _. rewrite vget_square, vget_zeros. ring.
Qed.

Lemma ex_kills_constants :
  kills_constants ex_Gx /\ kills_constants ex_Gy /\ kills_constants ex_Gz.
Proof.
  repeat split; intros r Hr; simpl in Hr;
    (destruct r as [|r]; [|lia]); vm_compute; ring.
Defined.

(** Witness for X4: the translation by (1, 2, 3) on the example. *)
Lemma translation_has_no_energy_witness :
  exists P U,
    killing_operator ex_Gx ex_Gy ex_Gz = Ok P /\ uniform_field 2 [1; 2; 3] = Ok U /\
    sp_apply P (flatten_F U) = zeros 6 /\
    face_energy 1 P (flatten_F U) = Ok (zeros 1).
Proof.
  destruct (translation_has_no_energy ex_Gx ex_Gy ex_Gz 1 2 [1; 2; 3])
    as (P & U & EP & EU & Hz & He);
    try reflexivity; try by_computation; try apply ex_kills_constants.
  exists P, U. split; [exact EP|]. split; [exact EU|]. split; [exact Hz|].
  apply He. lia.
Defined.

Lemma vsum_map_nonneg (f : nat -> R) (l : list nat) :
  (forall i, i ∈ l -> 0 <= f i) -> 0 <= vsum (map f l).
Proof.
  induction l as [|a l IH]; intros Hf; simpl; [lra|].
  assert (0 <= f a) by (apply Hf; left).
  assert (0 <= vsum (map f l)) by (apply IH; intros; apply Hf; now right).
  lra.
Qed.

Lemma vsum_map_zero_iff (f : nat -> R) (l : list nat) :
  (forall i, i ∈ l -> 0 <= f i) ->
  vsum (map f l) = 0 <-> forall i, i ∈ l -> f i = 0.
Proof.
  induction l as [|a l IH]; intros Hf; simpl.
  - split; [intros _ i Hi; inversion Hi | reflexivity].
  - assert (Ha : 0 <= f a) by (apply Hf; left).
    assert (Hl : forall i, i ∈ l -> 0 <= f i) by (intros; apply Hf; now right).
    pose proof (vsum_map_nonneg f l Hl) as Hs. specialize (IH Hl). split.
    + intros E i Hi. apply elem_of_cons in Hi. destruct Hi as [-> | Hi]; [lra|].
      apply IH; [lra | assumption].
    + intros Hz. rewrite (Hz a) by left.
      assert (vsum (map f l) = 0) by (apply IH; intros; apply Hz; now right). lra.
Qed.

Lemma violation_nonneg idxs dv du : 0 <= violation idxs dv du.
Proof.
  unfold violation. apply vsum_map_nonneg. intros i _.
  apply rsum_nonneg. intros c _. apply Rle_0_sqr.
Qed.

(** The violation is 0 exactly when every constrained vertex is on target. *)
Lemma violation_zero_iff idxs dv du :
  violation idxs dv du = 0 <->
  forall idx, idx ∈ idxs -> forall c, (c < 3)%nat -> nd_get du idx c = nd_get dv idx c.
Proof.
  unfold violation. rewrite vsum_map_zero_iff.
  2:{ intros i _. apply rsum_nonneg. intros c _. apply Rle_0_sqr. }
  split; intros H idx Hidx.
  - intros c Hc.
    pose proof (rsum_nonneg_zero _ 3 ltac:(intros; apply Rle_0_sqr) (H idx Hidx) c Hc) as Hz.
    apply Rmult_integral in Hz. lra.
  - rewrite (rsum_ext _ (fun _ => 0)); [apply rsum_zero|].
    intros c Hc. rewrite (H idx Hidx c Hc). ring.
Qed.

(** A translation by the common target leaves no residual. *)
Lemma translation_residual_zero Gx Gy Gz m n P idxs dv t lmbd A b U :
  sp_wf Gx -> sp_wf Gy -> sp_wf Gz ->
  sp_rows Gx = m -> sp_cols Gx = n ->
  sp_rows Gy = m -> sp_cols Gy = n ->
  sp_rows Gz = m -> sp_cols Gz = n ->
  kills_constants Gx -> kills_constants Gy -> kills_constants Gz ->
  killing_operator Gx Gy Gz = Ok P ->
  nd_rows dv = n -> nd_cols dv = 3%nat ->
  Forall (fun idx => (idx < n)%nat) idxs ->
  length t = 3%nat ->
  (forall idx, idx ∈ idxs -> forall c, (c < 3)%nat -> nd_get dv idx c = vget t c) ->
  system n P idxs dv lmbd = Ok (A, b) ->
  uniform_field n t = Ok U ->
  length (flatten_F U) = sp_cols A /\ normsq (residual A b (flatten_F U)) = 0.
Proof.
  intros Hwx Hwy Hwz Hrx Hcx Hry Hcy Hrz Hcz Hkx Hky Hkz EP Hdr Hdc Hall Ht Htgt Esys EU.
  destruct (killing_operator_spec Gx Gy Gz m n) as (P' & EP' & HrP & HcP & HwP & _);
    try assumption.
  rewrite EP in EP'. injection EP' as <-.
  destruct (uniform_field_spec n t Ht) as (U' & EU' & HrU & HcU & HwU & HgU).
  rewrite EU in EU'. injection EU' as <-.
  pose proof (killing_apply_translation Gx Gy Gz m n P t U Hwx Hwy Hwz Hrx Hcx Hry Hcy
                Hrz Hcz Hkx Hky Hkz Ht EP EU) as Hz.
  destruct (system_rows n P idxs dv Hdr Hdc HwP HcP Hall lmbd A b Esys (flatten_F U))
    as (_ & _ & HcA & _).
  split; [rewrite flatten_F_length; lia|].
  assert (HU : reshape_F (flatten_F U) n 3 = Ok U)
    by (rewrite <- HrU, <- HcU; now apply reshape_flatten_F).
  rewrite (objective_split n P idxs dv Hdr Hdc HwP HcP Hall lmbd A b Esys _ U HU).
  rewrite Hz, normsq_zeros.
  assert (Hv : violation idxs dv U = 0).
  { apply violation_zero_iff. intros idx Hidx c Hc.
    rewrite Forall_forall in Hall. rewrite HgU by auto. symmetry. now apply Htgt. }
  rewrite Hv. ring.
Qed.

(** X5. Uniform targets are met exactly.  When the gradient blocks give 0 on
    constants and every constrained vertex has the same target [t], a
    minimiser of the system built with a weight that is not 0 moves every
    constrained vertex by exactly [t] and has no Killing energy. *)
Theorem uniform_targets_recovered Gx Gy Gz m n P idxs dv t lmbd A b x :
  sp_wf Gx -> sp_wf Gy -> sp_wf Gz ->
  sp_rows Gx = m -> sp_cols Gx = n ->
  sp_rows Gy = m -> sp_cols Gy = n ->
  sp_rows Gz = m -> sp_cols Gz = n ->
  kills_constants Gx -> kills_constants Gy -> kills_constants Gz ->
  killing_operator Gx Gy Gz = Ok P ->
  nd_rows dv = n -> nd_cols dv = 3%nat ->
  Forall (fun idx => (idx < n)%nat) idxs ->
  length t = 3%nat ->
  (forall idx, idx ∈ idxs -> forall c, (c < 3)%nat -> nd_get dv idx c = vget t c) ->
  lmbd <> 0 ->
  system n P idxs dv lmbd = Ok (A, b) ->
  is_lsq A b x ->
  exists du, reshape_F x n 3 = Ok du /\
    normsq (sp_apply P x) = 0 /\
    forall idx, idx ∈ idxs -> forall c, (c < 3)%nat -> nd_get du idx c = vget t c.
Proof.
  intros Hwx Hwy Hwz Hrx Hcx Hry Hcy Hrz Hcz Hkx Hky Hkz EP Hdr Hdc Hall Ht Htgt Hl Esys
         [Hlx Hmin].
  destruct (killing_operator_spec Gx Gy Gz m n) as (P' & EP' & HrP & HcP & HwP & _);
    try assumption.
  rewrite EP in EP'. injection EP' as <-.
  destruct (uniform_field_spec n t Ht) as (U & EU & _).
  destruct (translation_residual_zero Gx Gy Gz m n P idxs dv t lmbd A b U) as [HlU HFt];
    try assumption.
  specialize (Hmin (flatten_F U) HlU).
  rewrite HFt in Hmin.
  destruct (system_rows n P idxs dv Hdr Hdc HwP HcP Hall lmbd A b Esys x) as (_ & _ & HcA & _).
  destruct (reshape_F_total x n 3 ltac:(lia)) as [du Hdu].
  rewrite (objective_split n P idxs dv Hdr Hdc HwP HcP Hall lmbd A b Esys x du Hdu) in Hmin.
  pose proof (normsq_nonneg (sp_apply P x)) as HE.
  pose proof (violation_nonneg idxs dv du) as HV.
  assert (Hl2 : 0 < lmbd * lmbd) by nra.
  assert (HV0 : violation idxs dv du = 0) by nra.
  exists du. split; [exact Hdu|]. split; [nra|].
  intros idx Hidx c Hc. rewrite <- (Htgt idx Hidx c Hc).
  revert idx Hidx c Hc. now apply violation_zero_iff.
Qed.

Lemma ex_targets idx :
  idx ∈ ex_idxs -> forall c, (c < 3)%nat -> nd_get ex_dv idx c = vget [1; 0; 0] c.
Proof.
  intros Hidx c Hc. unfold ex_idxs in Hidx.
  assert (idx = 1%nat) as ->.
  { apply elem_of_cons in Hidx. destruct Hidx as [-> | Hidx]; [reflexivity|].
    apply elem_of_cons in Hidx. destruct Hidx as [-> | Hidx]; [reflexivity|].
    inversion Hidx. }
  destruct c as [|[|[|c]]]; try lia; reflexivity.
Defined.

Lemma ex_U_is_lsq : is_lsq (ex_sysK 100).1 (ex_sysK 100).2 (flatten_F ex_U).
Proof.
  destruct (translation_residual_zero ex_Gx ex_Gy ex_Gz 1 2 ex_PK ex_idxs ex_dv [1; 0; 0] 100
              (ex_sysK 100).1 (ex_sysK 100).2 ex_U) as [Hl Hz];
    try reflexivity; try by_computation; try apply ex_kills_constants; try exact ex_targets.
  split; [exact Hl|]. intros y _. rewrite Hz. apply normsq_nonneg.
Defined.


(** Witness for X5: the translation by (1, 0, 0) on the example. *)
Lemma uniform_targets_recovered_witness :
  exists du, reshape_F (flatten_F ex_U) 2 3 = Ok du /\
    normsq (sp_apply ex_PK (flatten_F ex_U)) = 0 /\
    forall idx, idx ∈ ex_idxs -> forall c, (c < 3)%nat -> nd_get du idx c = vget [1; 0; 0] c.
Proof.
  apply (uniform_targets_recovered ex_Gx ex_Gy ex_Gz 1 2 ex_PK ex_idxs ex_dv [1; 0; 0] 100
           (ex_sysK 100).1 (ex_sysK 100).2 (flatten_F ex_U));
    try reflexivity; try by_computation; try apply ex_kills_constants;
    try exact ex_targets; try exact ex_U_is_lsq.
  lra.
Defined.

(** ** More on the energy of the faces *)

Lemma face_energy_ok_inv m P x e :
  face_energy m P x = Ok e -> length x = sp_cols P /\ (0 < m)%nat.
Proof.
  unfold face_energy, sp_matvec.
  destruct (Nat.eqb_spec (length x) (sp_cols P)) as [Hx|Hx]; [|discriminate].
  simpl mbind. unfold reshape_F_infer.
  destruct (Nat.eqb_spec m 0) as [Hm|Hm]; [discriminate|].
  intros _. split; [exact Hx | lia].
Qed.

Lemma list_is_zeros (l : list R) N :
  length l = N -> (forall p, (p < N)%nat -> vget l p = 0) -> l = zeros N.
Proof.
  intros Hl Hz. apply (nth_ext _ _ 0 0).
  - unfold zeros. now rewrite repeat_length.
  - intros p Hp. change (vget l p = vget (zeros N) p).
    rewrite vget_zeros. apply Hz. lia.
Qed.

(** X6. The energy is 0 on every face exactly when [P x] is 0. *)
Theorem face_energy_zero_iff m P x e :
  sp_rows P = (6 * m)%nat ->
  face_energy m P x = Ok e ->
  (forall i, (i < m)%nat -> vget e i = 0) <-> sp_apply P x = zeros (6 * m).
Proof.
  intros Hr He. destruct (face_energy_ok_inv m P x e He) as [Hx Hm].
  rewrite (face_energy_spec m P x Hm Hr Hx) in He.
  assert (Ee : forall i, (i < m)%nat ->
            vget e i = rsum (fun j => vget (square (sp_apply P x)) (j * m + i)) 6).
  { intros i Hi.
    assert (He' : e = map (fun i => rsum (fun j => vget (square (sp_apply P x)) (j * m + i)) 6)
                          (seq 0 m)) by congruence.
    rewrite He'. now rewrite vget_map_seq. }
  split.
  - intros Hz. apply list_is_zeros; [rewrite sp_apply_length; lia|].
    intros p Hp.
    pose proof (Nat.div_mod_eq p m) as Hdm.
    pose proof (Nat.mod_upper_bound p m ltac:(lia)) as Hmod.
    assert (Hdiv : (p / m < 6)%nat) by (apply Nat.Div0.div_lt_upper_bound; lia).
    specialize (Hz (p mod m)%nat Hmod). rewrite Ee in Hz by assumption.
    pose proof (rsum_nonneg_zero _ 6
                  ltac:(intros; rewrite vget_square; apply Rle_0_sqr) Hz (p / m)%nat Hdiv) as H0.
    cbv beta in H0. replace (p / m * m + p mod m)%nat with p in H0 by lia.
    rewrite vget_square in H0. apply Rmult_integral in H0. tauto.
  - intros Hz i Hi. rewrite Ee by assumption. rewrite Hz.
    rewrite (rsum_ext _ (fun _ => 0)); [apply rsum_zero|].
    intros j _. rewrite vget_square, vget_zeros. ring.
Qed.

(** Witness for X6: the second translation of the example. *)
Lemma face_energy_zero_iff_witness :
  exists e, face_energy 1 ex_P ex_x2 = Ok e /\
    ((forall i, (i < 1)%nat -> vget e i = 0) <-> sp_apply ex_P ex_x2 = zeros 6).
Proof.
  eexists. split; [reflexivity|].
  apply (face_energy_zero_iff 1 ex_P ex_x2); reflexivity.
Defined.

Lemma sp_apply_vscale M c x : sp_apply M (vscale c x) = vscale c (sp_apply M x).
Proof.
  unfold sp_apply, vscale at 2. rewrite map_map. apply map_ext. intros i.
  cbv beta. rewrite <- (rsum_scale c (fun j => sp_get M i j * vget x j)).
  apply rsum_ext. intros j _. rewrite vget_vscale. ring.
Qed.

(** X7. The energy is quadratic: a displacement multiplied by [c] has the
    energy of every face multiplied by the square of [c]. *)
Theorem face_energy_quadratic m P x e c :
  sp_rows P = (6 * m)%nat ->
  face_energy m P x = Ok e ->
  face_energy m P (vscale c x) = Ok (vscale (c * c) e).
Proof.
  intros Hr He. destruct (face_energy_ok_inv m P x e He) as [Hx Hm].
  assert (He' : e = map (fun i => rsum (fun j => vget (square (sp_apply P x)) (j * m + i)) 6)
                        (seq 0 m)).
  { rewrite (face_energy_spec m P x Hm Hr Hx) in He. congruence. }
  rewrite He'.
  rewrite (face_energy_spec m P (vscale c x) Hm Hr)
    by (unfold vscale; now rewrite length_map).
  f_equal. unfold vscale at 2. rewrite map_map. apply map_ext. intros i.
  cbv beta.
  rewrite <- (rsum_scale (c * c) (fun j => vget (square (sp_apply P x)) (j * m + i))).
  apply rsum_ext. intros j _.
  rewrite sp_apply_vscale, !vget_square, vget_vscale. ring.
Qed.

(** Witness for X7: the first translation of the example, doubled. *)
Lemma face_energy_quadratic_witness :
  exists e, face_energy 1 ex_P ex_x1 = Ok e /\
    face_energy 1 ex_P (vscale 2 ex_x1) = Ok (vscale (2 * 2) e).
Proof.
  eexists. split; [reflexivity|].
  apply (face_energy_quadratic 1 ex_P ex_x1); reflexivity.
Defined.

(** ** The outcomes of the solve *)

Lemma set_len_raises cur a e : set_len cur a = Raise e -> e = ValueError.
Proof.
  unfold set_len. destruct (cur =? 0)%nat; [discriminate|].
  destruct (cur =? a)%nat; [discriminate|]. now intros [= <-].
Qed.

Lemma brow_length_raises row : forall cur e,
  brow_length cur row = Raise e -> e = ValueError.
Proof.
  induction row as [|[B|] row IH]; intros cur e; simpl; [discriminate| |apply IH].
  destruct (set_len cur (sp_rows B)) as [c|e'] eqn:E; simpl.
  - apply IH.
  - intros [= <-]. now apply set_len_raises in E.
Qed.

Lemma all_brow_lengths_raises bl : forall e,
  all_brow_lengths bl = Raise e -> e = ValueError.
Proof.
  induction bl as [|row bl IH]; intros e; simpl; [discriminate|].
  destruct (brow_length 0 row) as [l|e'] eqn:E; simpl.
  - destruct (all_brow_lengths bl) as [ls|e''] eqn:E'; simpl; [discriminate|].
    intros [= <-]. now apply IH.
  - intros [= <-]. now apply brow_length_raises in E.
Qed.

Lemma bcol_lengths_raises row : forall cur e,
  bcol_lengths cur row = Raise e -> e = ValueError.
Proof.
  induction row as [|b row IH]; intros [|c cur] e; simpl; try discriminate.
  destruct b as [B|]; simpl.
  - destruct (set_len c (sp_cols B)) as [c'|e'] eqn:E; simpl.
    + destruct (bcol_lengths cur row) as [cs|e''] eqn:E'; simpl; [discriminate|].
      intros [= <-]. now apply IH in E'.
    + intros [= <-]. now apply set_len_raises in E.
  - destruct (bcol_lengths cur row) as [cs|e''] eqn:E'; simpl; [discriminate|].
    intros [= <-]. now apply IH in E'.
Qed.

Lemma all_bcol_lengths_raises bl : forall cur e,
  all_bcol_lengths cur bl = Raise e -> e = ValueError.
Proof.
  induction bl as [|row bl IH]; intros cur e; simpl; [discriminate|].
  destruct (bcol_lengths cur row) as [c|e'] eqn:E; simpl.
  - apply IH.
  - intros [= <-]. now apply bcol_lengths_raises in E.
Qed.

Lemma bind_ok {A B} (a : A) (f : A -> result B) : (Ok a ≫= f) = f a.
Proof. reflexivity. Qed.

Lemma bind_raise {A B} e (f : A -> result B) : (Raise e ≫= f) = Raise e.
Proof. reflexivity. Qed.

(** [bmat] raises nothing but [ValueError]. *)
Lemma bmat_raises bl e : bmat bl = Raise e -> e = ValueError.
Proof.
  unfold bmat. destruct bl as [|row0 bl]; [now intros [= <-]|].
  destruct (forallb _ (row0 :: bl)); [|now intros [= <-]].
  destruct (all_brow_lengths (row0 :: bl)) as [brows|e'] eqn:E.
  - rewrite bind_ok.
    destruct (all_bcol_lengths (repeat 0%nat (length row0)) (row0 :: bl))
      as [bcols|e''] eqn:E'.
    + rewrite bind_ok. discriminate.
    + rewrite bind_raise. intros [= ->]. now apply all_bcol_lengths_raises in E'.
  - rewrite bind_raise. intros [= ->]. now apply all_brow_lengths_raises in E.
Qed.

Lemma set_ones_raises idxs : forall I i e,
  set_ones I i idxs = Raise e -> e = IndexError.
Proof.
  induction idxs as [|idx idxs IH]; intros I i e; simpl; [discriminate|].
  unfold sp_setitem.
  destruct ((i <? sp_rows I)%nat && (idx <? sp_cols I)%nat)%bool; simpl.
  - apply IH.
  - now intros [= <-].
Qed.

Lemma constraint_operator_raises n idxs e :
  constraint_operator n idxs = Raise e -> e = IndexError \/ e = ValueError.
Proof.
  unfold constraint_operator, selection_matrix.
  destruct (set_ones _ 0 idxs) as [I|e1] eqn:E1.
  - rewrite bind_ok. intros E. right. now apply bmat_raises in E.
  - rewrite bind_raise. intros [= ->]. left. now apply set_ones_raises in E1.
Qed.

(** The assembly of the system raises [IndexError] or [ValueError]. *)
Lemma system_raises n P idxs dv lmbd e :
  system n P idxs dv lmbd = Raise e -> e = IndexError \/ e = ValueError.
Proof.
  unfold system.
  destruct (constraint_operator n idxs) as [Ik|e1] eqn:E1.
  2:{ rewrite bind_raise. intros [= ->]. now apply constraint_operator_raises in E1. }
  rewrite bind_ok.
  destruct (stack P Ik lmbd) as [A|e2] eqn:E2.
  2:{ rewrite bind_raise. intros [= ->]. right. unfold stack in E2.
      now apply bmat_raises in E2. }
  rewrite bind_ok. unfold rhs, take_rows.
  destruct (forallb _ idxs).
  - rewrite !bind_ok. discriminate.
  - rewrite !bind_raise. intros [= <-]. now left.
Qed.

(** [x.reshape(r, c, order='F')] flattened in the same order is [x]. *)
Lemma reshape_F_flatten x r c du : reshape_F x r c = Ok du -> flatten_F du = x.
Proof.
  intros H. pose proof H as H'. unfold reshape_F in H'.
  destruct (Nat.eqb_spec (length x) (r * c)) as [Hl|]; [|discriminate].
  assert (Hr : nd_rows du = r) by (injection H' as <-; reflexivity).
  assert (Hc : nd_cols du = c) by (injection H' as <-; reflexivity).
  apply (blocks_ext _ _ c r).
  - rewrite flatten_F_length, Hr, Hc. reflexivity.
  - lia.
  - intros j i Hj Hi. unfold flatten_F. rewrite Hr, Hc. unfold vget at 1.
    rewrite (nth_grid (fun j i => nd_get du i j) r c) by assumption. simpl.
    now destruct (reshape_F_get x r c du i j H Hi Hj) as (_ & _ & _ & ->).
Qed.

(** The rows of the stacked matrix. *)
Lemma stack_rows P Ik lmbd A :
  stack P Ik lmbd = Ok A -> sp_rows A = (sp_rows P + sp_rows Ik)%nat.
Proof.
  unfold stack, bmat. simpl. rewrite ?sp_cols_scale, ?sp_rows_scale.
  destruct (set_len (sp_cols P) (sp_cols Ik)); simpl; [|discriminate].
  intros [= <-]. simpl. lia.
Qed.

(** The constraint operator, when it is built, has three rows for each id. *)
Lemma constraint_operator_rows n idxs Ik :
  constraint_operator n idxs = Ok Ik -> sp_rows Ik = (3 * length idxs)%nat.
Proof.
  intros E. destruct (decide (Forall (fun idx => (idx < n)%nat) idxs)) as [Hall | Hn].
  - destruct (constraint_operator_spec n idxs Hall) as (Ik' & E' & Hr & _). congruence.
  - apply not_Forall_Exists in Hn; [|intros x; apply _].
    rewrite constraint_operator_out in E; [discriminate|].
    eapply Exists_impl; [exact Hn|]. simpl. intros x Hx. lia.
Qed.

Lemma rhs_length P idxs dv lmbd b :
  rhs P idxs dv lmbd = Ok b -> length b = (sp_rows P + nd_cols dv * length idxs)%nat.
Proof.
  unfold rhs, take_rows. destruct (forallb _ idxs); [|discriminate].
  rewrite bind_ok. intros [= <-].
  unfold zeros, vscale. now rewrite length_app, repeat_length, length_map, flatten_F_length.
Qed.

(** With targets of three columns the right-hand side has one entry for each
    row of the matrix. *)
Lemma system_lengths n P idxs dv lmbd A b :
  nd_cols dv = 3%nat -> system n P idxs dv lmbd = Ok (A, b) -> length b = sp_rows A.
Proof.
  intros Hc. unfold system.
  destruct (constraint_operator n idxs) as [Ik|] eqn:EI; [|discriminate]. rewrite bind_ok.
  destruct (stack P Ik lmbd) as [A'|] eqn:ES; [|discriminate]. rewrite bind_ok.
  destruct (rhs P idxs dv lmbd) as [b'|] eqn:ER; [|discriminate]. rewrite bind_ok.
  intros [= <- <-].
  rewrite (rhs_length _ _ _ _ _ ER), (stack_rows _ _ _ _ ES),
    (constraint_operator_rows _ _ _ EI), Hc. reflexivity.
Qed.

Section Outcomes.

Variable lsqr : spmatrix -> list R -> lsqr_result.

(** X8. With targets of three columns the solve ends in exactly one of four
    ways, decided by the assembly of the system and by the length of the
    solver's iterate.  When the assembly raises, it raises [IndexError] or
    [ValueError], the solve raises the same and the solver has not been
    called.  When the system is assembled, its right-hand side has one entry
    for each row of the matrix and the solver is called once, on that
    system; then the displacement is returned, with the shape of [v], if the
    iterate has as many entries as [v], and the reshaping raises
    [ValueError] if not. *)
Theorem solve_akvf_outcomes v P idxs dv lmbd log :
  nd_cols dv = 3%nat ->
  let outcome := solve_akvf lsqr v P idxs dv lmbd log in
  match system (nd_rows v) P idxs dv lmbd with
  | Raise e =>
      (e = IndexError \/ e = ValueError) /\ outcome = (Raise e, log)
  | Ok (A, b) =>
      length b = sp_rows A /\
      if (length (lsqr_x (lsqr A b)) =? nd_rows v * nd_cols v)%nat
      then exists du, outcome = (Ok du, CallLsqr A b :: log) /\
             nd_rows du = nd_rows v /\ nd_cols du = nd_cols v /\
             flatten_F du = lsqr_x (lsqr A b)
      else outcome = (Raise ValueError, CallLsqr A b :: log)
  end.
Proof.
  intros Hc outcome. unfold outcome, solve_akvf, lift, call_lsqr, mbind, M_bind.
  destruct (system (nd_rows v) P idxs dv lmbd) as [[A b]|e] eqn:E.
  - split; [exact (system_lengths _ _ _ _ _ _ _ Hc E)|]. simpl.
    destruct (reshape_F (lsqr_x (lsqr A b)) (nd_rows v) (nd_cols v)) as [du|e] eqn:Er.
    + pose proof (reshape_F_flatten _ _ _ _ Er) as Hfl.
      unfold reshape_F in Er.
      destruct (length (lsqr_x (lsqr A b)) =? nd_rows v * nd_cols v)%nat; [|discriminate].
      exists du. split; [reflexivity|].
      split; [injection Er as <-; reflexivity|].
      split; [injection Er as <-; reflexivity | exact Hfl].
    + unfold reshape_F in Er.
      destruct (length (lsqr_x (lsqr A b)) =? nd_rows v * nd_cols v)%nat; [discriminate|].
      now injection Er as <-.
  - split; [|reflexivity].
    destruct (system_raises _ _ _ _ _ _ E) as [-> | ->]; [left | right]; reflexivity.
Qed.

(** X9. An operator whose number of columns is neither 0 nor three times the
    number of vertices (an operator of another mesh) makes the stacking of
    [A] raise [ValueError], and the solver is not called. *)
Theorem solve_akvf_wrong_operator v P idxs dv lmbd log :
  Forall (fun idx => (idx < nd_rows v)%nat) idxs ->
  sp_cols P <> 0%nat -> sp_cols P <> (3 * nd_rows v)%nat ->
  solve_akvf lsqr v P idxs dv lmbd log = (Raise ValueError, log).
Proof.
  intros Hall H0 H3.
  destruct (constraint_operator_spec (nd_rows v) idxs Hall) as (Ik & EIk & HrI & HcI & _).
  assert (Es : stack P Ik lmbd = Raise ValueError).
  { assert (El : set_len (sp_cols P) (sp_cols Ik) = Raise ValueError).
    { unfold set_len. rewrite HcI. apply Nat.eqb_neq in H0, H3. now rewrite H0, H3. }
    unfold stack, bmat. simpl. rewrite ?sp_cols_scale, El. reflexivity. }
  assert (Esys : system (nd_rows v) P idxs dv lmbd = Raise ValueError).
  { unfold system. now rewrite EIk, bind_ok, Es, bind_raise. }
  unfold solve_akvf, lift, mbind, M_bind. now rewrite Esys.
Qed.

End Outcomes.

(** Witness for X8: the solve on the example returns the displacement. *)
Lemma solve_akvf_outcomes_witness :
  let outcome := solve_akvf (ex_lsqr 1) ex_v ex_P ex_idxs ex_dv 100 [] in
  match system (nd_rows ex_v) ex_P ex_idxs ex_dv 100 with
  | Raise e =>
      (e = IndexError \/ e = ValueError) /\ outcome = (Raise e, [])
  | Ok (A, b) =>
      length b = sp_rows A /\
      if (length (lsqr_x (ex_lsqr 1 A b)) =? nd_rows ex_v * nd_cols ex_v)%nat
      then exists du, outcome = (Ok du, [CallLsqr A b]) /\
             nd_rows du = nd_rows ex_v /\ nd_cols du = nd_cols ex_v /\
             flatten_F du = lsqr_x (ex_lsqr 1 A b)
      else outcome = (Raise ValueError, [CallLsqr A b])
  end.
Proof.
  apply (solve_akvf_outcomes (ex_lsqr 1) ex_v ex_P ex_idxs ex_dv 100 []). reflexivity.
Defined.

(** Witness for X9: an operator with four columns on the example mesh. *)
Lemma solve_akvf_wrong_operator_witness :
  solve_akvf (ex_lsqr 1) ex_v (csr_matrix 6 4) ex_idxs ex_dv 100 [] = (Raise ValueError, []).
Proof.
  apply (solve_akvf_wrong_operator (ex_lsqr 1) ex_v (csr_matrix 6 4) ex_idxs ex_dv 100 []).
  - exact ex_idxs_in.
  - simpl. lia.
  - simpl. lia.
Defined.

(** ** The split of the gradient *)

Lemma sp_row_slice_lookup M a b r c :
  sp_data (sp_row_slice M a b) !! (r, c) =
    if decide (r < Nat.min b (sp_rows M) - Nat.min a (sp_rows M))%nat
    then sp_data M !! ((Nat.min a (sp_rows M) + r)%nat, c)
    else None.
Proof.
  unfold sp_row_slice. simpl sp_data.
  set (lo := Nat.min a (sp_rows M)). set (hi := Nat.min b (sp_rows M)).
  revert r c.
  apply (map_fold_weak_ind
           (fun (acc : gmap (nat * nat) R) (m : gmap (nat * nat) R) =>
              forall r c, acc !! (r, c) =
                if decide (r < hi - lo)%nat then m !! ((lo + r)%nat, c) else None)).
  - intros r c. rewrite !lookup_empty. now case_decide.
  - intros [i j] x m acc Hnone IH r c. simpl.
    destruct (decide (lo <= i < hi)%nat) as [Hin|Hout].
    + destruct (decide ((i - lo)%nat = r /\ j = c)) as [[<- <-]|Hne].
      * rewrite lookup_insert_eq. rewrite decide_True by lia.
        replace (lo + (i - lo))%nat with i by lia. now rewrite lookup_insert_eq.
      * rewrite lookup_insert_ne by (intros [= ? ?]; tauto).
        rewrite IH. case_decide; [|reflexivity].
        rewrite lookup_insert_ne; [reflexivity|]. intros [= ? ?]. apply Hne. lia.
    + rewrite IH. case_decide; [|reflexivity].
      rewrite lookup_insert_ne; [reflexivity|]. intros [= ? ?]. lia.
Qed.

Lemma sp_row_slice_spec M a b :
  sp_wf M -> (a <= b)%nat -> (b <= sp_rows M)%nat ->
  sp_rows (sp_row_slice M a b) = (b - a)%nat /\
  sp_cols (sp_row_slice M a b) = sp_cols M /\
  sp_wf (sp_row_slice M a b) /\
  forall r c, (r < b - a)%nat -> sp_get (sp_row_slice M a b) r c = sp_get M (a + r) c.
Proof.
  intros Hwf Hab Hb.
  assert (Ha : Nat.min a (sp_rows M) = a) by lia.
  assert (Hb' : Nat.min b (sp_rows M) = b) by lia.
  split; [simpl; lia|]. split; [reflexivity|]. split.
  - intros [r c] v Hv. rewrite sp_row_slice_lookup, Ha, Hb' in Hv.
    case_decide; [|discriminate]. apply (Hwf (_, _)) in Hv. simpl in *. lia.
  - intros r c Hr. unfold sp_get. rewrite sp_row_slice_lookup, Ha, Hb'.
    now rewrite decide_True by assumption.
Qed.

(** X10. A gradient with 3m rows is split into three blocks of m rows: [Gx]
    holds its rows 0 .. m-1, [Gy] its rows m .. 2m-1 and [Gz] its rows
    2m .. 3m-1, and the Killing-energy operator is then always built, with
    shape 6m × 3n. *)
Theorem split_gradient_blocks G m n :
  sp_wf G -> sp_rows G = (3 * m)%nat -> sp_cols G = n ->
  exists Gx Gy Gz P,
    split_gradient G m = (Gx, Gy, Gz) /\
    (forall r c, (r < m)%nat ->
       sp_get Gx r c = sp_get G r c /\
       sp_get Gy r c = sp_get G (m + r) c /\
       sp_get Gz r c = sp_get G (2 * m + r) c) /\
    killing_operator_of_gradient G m = Ok P /\
    killing_operator Gx Gy Gz = Ok P /\
    sp_rows P = (6 * m)%nat /\ sp_cols P = (3 * n)%nat /\ sp_wf P.
Proof.
  intros Hwf Hr Hc.
  destruct (sp_row_slice_spec G 0 m Hwf) as (Hxr & Hxc & Hxw & Hxg); try lia.
  destruct (sp_row_slice_spec G m (2 * m) Hwf) as (Hyr & Hyc & Hyw & Hyg); try lia.
  destruct (sp_row_slice_spec G (2 * m) (sp_rows G) Hwf) as (Hzr & Hzc & Hzw & Hzg); try lia.
  destruct (killing_operator_spec (sp_row_slice G 0 m) (sp_row_slice G m (2 * m))
              (sp_row_slice G (2 * m) (sp_rows G)) m n)
    as (P & EP & HrP & HcP & HwP & _); try assumption; try lia.
  exists (sp_row_slice G 0 m), (sp_row_slice G m (2 * m)),
         (sp_row_slice G (2 * m) (sp_rows G)), P.
  split; [reflexivity|]. split.
  { intros r c Hrm. split; [|split].
    - rewrite Hxg by lia. reflexivity.
    - rewrite Hyg by lia. reflexivity.
    - rewrite Hzg by lia. reflexivity. }
  split; [exact EP|]. split; [exact EP|]. auto.
Qed.

(** Witness for X10: the gradient of the example. *)
Lemma split_gradient_blocks_witness :
  exists Gx Gy Gz P,
    split_gradient ex_G 1 = (Gx, Gy, Gz) /\
    sp_get Gy 0 1 = sp_get ex_G 1 1 /\
    killing_operator_of_gradient ex_G 1 = Ok P /\
    sp_rows P = 6%nat /\ sp_cols P = 6%nat.
Proof.
  destruct (split_gradient_blocks ex_G 1 2)
    as (Gx & Gy & Gz & P & Es & Hg & EP & _ & HrP & HcP & _);
    try reflexivity; try by_computation.
  exists Gx, Gy, Gz, P. split; [exact Es|]. split; [apply (Hg 0%nat 1%nat); lia|].
  split; [exact EP|]. split; assumption.
Defined.

(** ** The cell of the constraints *)

Lemma elem_of_where_from c : forall i x,
  x ∈ where_from i c <-> exists p, x = (i + p)%nat /\ c !! p = Some true.
Proof.
  induction c as [|b c IH]; intros i x; simpl.
  - split; [intros H; inversion H | intros (p & _ & H); discriminate].
  - assert (Hrec : x ∈ where_from (S i) c <->
                   exists p, x = (i + S p)%nat /\ c !! p = Some true).
    { rewrite IH. split; intros (p & -> & H); exists p; split; auto; lia. }
    destruct b.
    + rewrite elem_of_cons, Hrec. split.
      * intros [-> | (p & -> & H)]; [exists 0%nat | exists (S p)]; split; auto; lia.
      * intros ([|p] & -> & H); [left; lia | right; exists p; auto].
    + rewrite Hrec. split.
      * intros (p & -> & H). exists (S p). auto.
      * intros ([|p] & -> & H); [discriminate | exists p; auto].
Qed.

Lemma where_from_sorted c : forall i, StronglySorted lt (where_from i c).
Proof.
  induction c as [|b c IH]; intros i; simpl; [constructor|].
  destruct b; [|apply IH].
  constructor; [apply IH|].
  apply Forall_forall. intros x Hx. apply elem_of_where_from in Hx.
  destruct Hx as (p & -> & _). lia.
Qed.

(** [np.where]: the positions of the true entries, each once, in order. *)
Lemma np_where_spec c :
  (forall x, x ∈ np_where c <-> c !! x = Some true) /\
  StronglySorted lt (np_where c).
Proof.
  split; [|apply where_from_sorted].
  intros x. unfold np_where. rewrite elem_of_where_from. split.
  - intros (p & -> & H). exact H.
  - intros H. exists x. auto.
Qed.

Lemma less_than_lookup x c p :
  less_than x c !! p = Some true <-> exists a, x !! p = Some a /\ a < c.
Proof.
  unfold less_than. rewrite list_lookup_fmap.
  destruct (x !! p) as [a|]; simpl.
  - split.
    + intros [= H]. apply bool_decide_eq_true in H. eauto.
    + intros (a' & [= <-] & H). f_equal. now apply bool_decide_eq_true.
  - split; [discriminate | intros (a & H & _); discriminate].
Qed.

Lemma lookup_map_seq (f : nat -> R) N p :
  map f (seq 0 N) !! p = if decide (p < N)%nat then Some (f p) else None.
Proof.
  change (map f (seq 0 N)) with (f <$> seq 0 N).
  rewrite list_lookup_fmap. case_decide.
  - now rewrite lookup_seq_lt.
  - now rewrite lookup_seq_ge by lia.
Qed.

(** The least of a value and a list: below all of them and one of them. *)
Lemma fold_left_Rmin_spec l : forall a,
  let m := fold_left Rmin l a in
  m <= a /\ (forall x, x ∈ l -> m <= x) /\ (m = a \/ m ∈ l).
Proof.
  induction l as [|b l IH]; intros a; simpl.
  - split; [lra|]. split; [intros x Hx; inversion Hx | now left].
  - destruct (IH (Rmin a b)) as (H1 & H2 & H3).
    pose proof (Rmin_l a b). pose proof (Rmin_r a b).
    split; [lra|]. split.
    + intros x Hx. apply elem_of_cons in Hx. destruct Hx as [-> | Hx]; [lra | auto].
    + destruct H3 as [H3 | H3]; [|right; apply elem_of_cons; now right].
      assert (Hm : Rmin a b = a \/ Rmin a b = b)
        by (unfold Rmin; destruct (Rle_dec a b); auto).
      destruct Hm as [Hm | Hm];
        [left | right; apply elem_of_cons; left]; now rewrite H3.
Qed.

Lemma length_flat_map_const (f : nat -> list R) w : forall l,
  (forall x, length (f x) = w) -> length (flat_map f l) = (length l * w)%nat.
Proof.
  induction l as [|a l IH]; intros Hf; simpl; [reflexivity|].
  now rewrite length_app, Hf, IH.
Qed.

Lemma set_row_spec a r row :
  length row = nd_cols a ->
  nd_rows (set_row a r row) = nd_rows a /\
  nd_cols (set_row a r row) = nd_cols a /\
  nd_wf (set_row a r row) /\
  forall i j, (i < nd_rows a)%nat -> (j < nd_cols a)%nat ->
    nd_get (set_row a r row) i j = if decide (i = r) then vget row j else nd_get a i j.
Proof.
  intros Hrow. split; [reflexivity|]. split; [reflexivity|]. split.
  { unfold nd_wf, set_row; simpl.
    rewrite (length_flat_map_const _ (nd_cols a)), length_seq; [reflexivity|].
    intros x. destruct (x =? r)%nat; [exact Hrow | apply nd_row_length]. }
  intros i j Hi Hj. unfold nd_get at 1, set_row; simpl. unfold vget at 1.
  rewrite (nth_flat_map_const _ (nd_cols a)).
  - rewrite seq_nth by assumption. simpl.
    destruct (Nat.eqb_spec i r) as [->|Hne].
    + now rewrite decide_True.
    + rewrite decide_False by assumption. now apply nd_row_get.
  - intros x. destruct (x =? r)%nat; [exact Hrow | apply nd_row_length].
  - now rewrite length_seq.
  - assumption.
Qed.

(** Rows that all hold [row] written at the places [idxs]. *)
Lemma assign_rows_uniform vals row idxs : forall a p,
  nd_wf a ->
  length row = nd_cols a ->
  (forall q, (q < length idxs)%nat -> nd_row vals (p + q) = row) ->
  nd_rows (assign_rows a idxs p vals) = nd_rows a /\
  nd_cols (assign_rows a idxs p vals) = nd_cols a /\
  nd_wf (assign_rows a idxs p vals) /\
  forall i j, (i < nd_rows a)%nat -> (j < nd_cols a)%nat ->
    nd_get (assign_rows a idxs p vals) i j =
      if decide (i ∈ idxs) then vget row j else nd_get a i j.
Proof.
  induction idxs as [|idx idxs IH]; intros a p Hwf Hrow Hvals; cbn [assign_rows].
  - split; [reflexivity|]. split; [reflexivity|]. split; [exact Hwf|]. intros i j _ _.
    rewrite decide_False; [reflexivity|]. intros H; inversion H.
  - assert (Hp : nd_row vals p = row)
      by (rewrite <- (Hvals 0%nat) by (simpl; lia); f_equal; lia).
    rewrite Hp.
    destruct (set_row_spec a idx row Hrow) as (Hr & Hc & Hw & Hg).
    destruct (IH (set_row a idx row) (S p)) as (Hr' & Hc' & Hw' & Hg').
    { exact Hw. }
    { now rewrite Hc. }
    { intros q Hq. rewrite <- (Hvals (S q)) by (simpl; lia). f_equal. lia. }
    split; [now rewrite Hr'|]. split; [now rewrite Hc'|]. split; [exact Hw'|].
    intros i j Hi Hj. rewrite Hg' by (rewrite ?Hr, ?Hc; assumption).
    rewrite Hg by assumption.
    destruct (decide (i ∈ idxs)) as [Hin|Hnin].
    + rewrite decide_True; [reflexivity | apply elem_of_cons; now right].
    + destruct (decide (i = idx)) as [->|Hne].
      * rewrite decide_True; [reflexivity | apply elem_of_cons; now left].
      * rewrite decide_False; [reflexivity|].
        intros H. apply elem_of_cons in H. tauto.
Qed.

Lemma set_rows_uniform a idxs vals row :
  nd_wf a ->
  Forall (fun idx => (idx < nd_rows a)%nat) idxs ->
  nd_rows vals = length idxs -> nd_cols vals = nd_cols a ->
  (forall q, (q < length idxs)%nat -> nd_row vals q = row) ->
  length row = nd_cols a ->
  exists a', set_rows a idxs vals = Ok a' /\
    nd_rows a' = nd_rows a /\ nd_cols a' = nd_cols a /\ nd_wf a' /\
    forall i j, (i < nd_rows a)%nat -> (j < nd_cols a)%nat ->
      nd_get a' i j = if decide (i ∈ idxs) then vget row j else nd_get a i j.
Proof.
  intros Hwf Hall Hr Hc Hvals Hrow. unfold set_rows.
  assert (Hb : forallb (fun i => (i <? nd_rows a)%nat) idxs = true).
  { apply forallb_forall. intros x Hx. apply Nat.ltb_lt.
    rewrite Forall_forall in Hall. now apply Hall, list_elem_of_In. }
  rewrite Hb. apply Nat.eqb_eq in Hr, Hc. rewrite Hr, Hc. simpl.
  eexists. split; [reflexivity|].
  apply assign_rows_uniform; assumption.
Qed.

(** [a op row] when the row has as many entries as [a] has columns. *)
Lemma broadcast_row_same op a row :
  length row = nd_cols a -> (1 < nd_cols a)%nat ->
  exists d, broadcast_row op a row = Ok d /\
    nd_rows d = nd_rows a /\ nd_cols d = nd_cols a /\ nd_wf d /\
    forall i j, (i < nd_rows a)%nat -> (j < nd_cols a)%nat ->
      nd_get d i j = op (nd_get a i j) (vget row j).
Proof.
  intros Hl Hc. unfold broadcast_row. rewrite Hl, Nat.eqb_refl.
  destruct (Nat.eqb_spec (nd_cols a) 1) as [E|_]; [lia|]. simpl.
  eexists. split; [reflexivity|]. split; [reflexivity|]. split; [reflexivity|]. split.
  { unfold nd_wf. simpl.
    now rewrite (length_grid (fun i j => op (nd_get a i j) (vget row j))). }
  intros i j Hi Hj. unfold nd_get at 1. simpl nd_cols. simpl nd_data. unfold vget at 1.
  now rewrite (nth_grid (fun i j => op (nd_get a i j) (vget row j)) (nd_cols a) (nd_rows a))
    by assumption.
Qed.

Lemma nd_map_get f a i j :
  nd_wf a -> (i < nd_rows a)%nat -> (j < nd_cols a)%nat ->
  nd_get (nd_map f a) i j = f (nd_get a i j).
Proof.
  intros Hwf Hi Hj. unfold nd_get, nd_map, vget. simpl.
  rewrite (nth_indep _ 0 (f 0)) by (rewrite length_map, Hwf; nia).
  apply map_nth.
Qed.

(** [f(d).sum(1)]: the entry of a row that exists. *)
Lemma row_sums_map_lookup fsum f d p :
  nd_wf d ->
  row_sums fsum (nd_map f d) !! p =
    if decide (p < nd_rows d)%nat
    then Some (fsum (map (fun j => f (nd_get d p j)) (seq 0 (nd_cols d))))
    else None.
Proof.
  intros Hwf. unfold row_sums. rewrite lookup_map_seq. simpl nd_rows.
  case_decide as Hp; [|reflexivity]. f_equal. f_equal.
  unfold nd_row. simpl nd_cols. apply map_ext_in. intros j Hj.
  apply in_seq in Hj. apply nd_map_get; [assumption | assumption | lia].
Qed.

Lemma nd_zeros_get r c i j : nd_get (nd_zeros r c) i j = 0.
Proof. unfold nd_get, nd_zeros. simpl. apply vget_zeros. Qed.

Lemma nd_zeros_wf r c : nd_wf (nd_zeros r c).
Proof. unfold nd_wf, nd_zeros, zeros. simpl. apply repeat_length. Qed.

(** The cell on a mesh with at least one vertex: it returns; the ear is the
    vertices whose computed squared distance is below the computed square of
    [r_ear], the base the vertices whose y is below the computed threshold,
    the least y [ymin] plus [height_base]; [dv] is 0 on the base, [move_ear]
    on the rest of the ear and 0 elsewhere. *)
Lemma define_constraints_spec fo v :
  nd_cols v = 3%nat -> (0 < nd_rows v)%nat ->
  exists cs ymin, define_constraints fo v = Ok cs /\
    ((forall i, (i < nd_rows v)%nat -> ymin <= nd_get v i 1) /\
     (exists i, (i < nd_rows v)%nat /\ nd_get v i 1 = ymin)) /\
    ((forall i, i ∈ cs_idxs_ear cs <->
                (i < nd_rows v)%nat /\
                sq_dist fo v i pt_ear < f_square fo (f_lit fo r_ear)) /\
     (forall i, i ∈ cs_idxs_base cs <->
                (i < nd_rows v)%nat /\
                nd_get v i 1 < f_add fo ymin (f_lit fo height_base)) /\
     StronglySorted lt (cs_idxs_ear cs) /\ StronglySorted lt (cs_idxs_base cs) /\
     cs_idxs cs = cs_idxs_ear cs ++ cs_idxs_base cs) /\
    (nd_rows (cs_dv cs) = nd_rows v /\ nd_cols (cs_dv cs) = 3%nat /\ nd_wf (cs_dv cs) /\
     forall i j, (i < nd_rows v)%nat -> (j < 3)%nat ->
       nd_get (cs_dv cs) i j =
         if decide (i ∈ cs_idxs_base cs) then 0
         else if decide (i ∈ cs_idxs_ear cs) then vget move_ear j else 0).
Proof.
  intros Hc Hn. unfold define_constraints.
  destruct (broadcast_row_same (f_sub fo) v (map (f_lit fo) pt_ear))
    as (d & Ed & Hdr & Hdc & Hdw & Hd); [now rewrite Hc | lia |].
  rewrite Ed, bind_ok.
  set (idxs_ear := np_where (less_than (row_sums (f_sum fo) (nd_map (f_square fo) d))
                                       (f_square fo (f_lit fo r_ear)))).
  destruct (uniform_field_spec (length idxs_ear) move_ear eq_refl)
    as (dv_ear & Ee & Her & Hec & _ & Heg).
  rewrite Ee, bind_ok.
  unfold nd_col. rewrite Hc. change (1 <? 3)%nat with true. cbv iota. rewrite bind_ok.
  unfold nd_min0. destruct (nd_rows v) as [|r] eqn:Hr; [lia|]. rewrite bind_ok.
  unfold vindex. rewrite Hc, lookup_map_seq, decide_True by lia. rewrite bind_ok.
  set (ymin := fold_left Rmin (map (fun i => nd_get v i 1) (seq 1 r)) (nd_get v 0 1)).
  set (idxs_base := np_where (less_than (map (fun i => nd_get v i 1) (seq 0 (S r)))
                                        (f_add fo ymin (f_lit fo height_base)))).
  (* the two selections *)
  assert (Hear : forall i, i ∈ idxs_ear <->
                 (i < S r)%nat /\ sq_dist fo v i pt_ear < f_square fo (f_lit fo r_ear)).
  { intros i. unfold idxs_ear. rewrite (proj1 (np_where_spec _)), less_than_lookup.
    rewrite row_sums_map_lookup by exact Hdw. rewrite Hdr, Hdc, Hc.
    assert (Hsq : (i < S r)%nat ->
              f_sum fo (map (fun j => f_square fo (nd_get d i j)) (seq 0 3)) =
              sq_dist fo v i pt_ear).
    { intros Hi. unfold sq_dist. f_equal. apply map_ext_in. intros j Hj.
      apply in_seq in Hj. rewrite Hd by (rewrite ?Hc; lia). f_equal. f_equal.
      destruct j as [|[|[|j]]]; try lia; reflexivity. }
    case_decide as Hi.
    - rewrite <- (Hsq Hi). split.
      + intros (a & [= <-] & Hlt). auto.
      + intros (_ & Hlt). eauto.
    - split; [intros (a & Ha & _); discriminate | intros (Hi' & _); lia]. }
  assert (Hbase : forall i, i ∈ idxs_base <->
                  (i < S r)%nat /\ nd_get v i 1 < f_add fo ymin (f_lit fo height_base)).
  { intros i. unfold idxs_base. rewrite (proj1 (np_where_spec _)), less_than_lookup.
    rewrite lookup_map_seq. case_decide as Hi.
    - split.
      + intros (a & [= <-] & Hlt). auto.
      + intros (_ & Hlt). eauto.
    - split; [intros (a & Ha & _); discriminate | intros (Hi' & _); lia]. }
  (* the two assignments *)
  destruct (set_rows_uniform (nd_zeros (S r) 3) idxs_ear dv_ear move_ear)
    as (dv1 & E1 & H1r & H1c & H1w & H1g).
  { apply nd_zeros_wf. }
  { apply Forall_forall. intros i Hi. apply Hear in Hi. simpl. tauto. }
  { exact Her. }
  { exact Hec. }
  { intros q Hq. unfold nd_row. rewrite Hec. cbv [seq map].
    rewrite !Heg by lia. reflexivity. }
  { reflexivity. }
  rewrite E1, bind_ok. simpl in H1r, H1c.
  destruct (set_rows_uniform dv1 idxs_base (nd_zeros (length idxs_base) 3) [0; 0; 0])
    as (dv2 & E2 & H2r & H2c & H2w & H2g).
  { exact H1w. }
  { apply Forall_forall. intros i Hi. apply Hbase in Hi. rewrite H1r. tauto. }
  { reflexivity. }
  { now rewrite H1c. }
  { intros q Hq. unfold nd_row. simpl nd_cols. cbv [seq map].
    now rewrite !nd_zeros_get. }
  { now rewrite H1c. }
  rewrite E2, bind_ok.
  exists (Constraints idxs_ear idxs_base (idxs_ear ++ idxs_base) dv2), ymin.
  split; [reflexivity|]. simpl. split; [|split].
  - destruct (fold_left_Rmin_spec (map (fun i => nd_get v i 1) (seq 1 r)) (nd_get v 0 1))
      as (Hm0 & Hml & Hmin). fold ymin in Hm0, Hml, Hmin. split.
    + intros [|i] Hi; [exact Hm0|]. apply Hml.
      apply (list_elem_of_fmap_2 (fun i => nd_get v i 1)). apply elem_of_seq. lia.
    + destruct Hmin as [E | Hin].
      * exists 0%nat. split; [lia | now rewrite E].
      * apply list_elem_of_fmap in Hin. destruct Hin as (i & E & Hi).
        apply elem_of_seq in Hi. exists i. split; [lia | now rewrite E].
  - split; [exact Hear|]. split; [exact Hbase|].
    split; [apply np_where_spec|]. split; [apply np_where_spec | reflexivity].
  - split; [now rewrite H2r, H1r|]. split; [now rewrite H2c, H1c|]. split; [exact H2w|].
    intros i j Hi Hj. rewrite H2g by (rewrite ?H1r, ?H1c; assumption).
    destruct (decide (i ∈ idxs_base)).
    + now destruct j as [|[|[|j]]]; try lia.
    + rewrite H1g by (simpl; assumption).
      destruct (decide (i ∈ idxs_ear)); [reflexivity | apply nd_zeros_get].
Qed.

Lemma vsum_app (x y : list R) : vsum (x ++ y) = vsum x + vsum y.
Proof. unfold vsum. induction x as [|a x IH]; simpl; [ring | rewrite IH; ring]. Qed.

Lemma vsum_map_ext_in (f g : nat -> R) (l : list nat) :
  (forall i, i ∈ l -> f i = g i) -> vsum (map f l) = vsum (map g l).
Proof.
  induction l as [|a l IH]; intros H; simpl; [reflexivity|].
  rewrite (H a) by (apply elem_of_cons; now left).
  rewrite IH; [reflexivity|]. intros i Hi. apply H, elem_of_cons. now right.
Qed.

(** X11. On a mesh with at least one vertex and three coordinates the cell
    of the constraints returns, whatever the rounding of the float64
    operations.  The ear is exactly the vertices whose squared distance from
    [pt_ear], as the cell computes it, is below the computed square of
    [r_ear]; the base is exactly the vertices whose y is below the computed
    sum of the least y of the mesh and [.002].  Each of the two lists is
    strictly increasing (no vertex twice), and [idxs] is the ear followed by
    the base. *)
Theorem define_constraints_selection fo v :
  nd_cols v = 3%nat -> (0 < nd_rows v)%nat ->
  exists cs ymin, define_constraints fo v = Ok cs /\
    (forall i, (i < nd_rows v)%nat -> ymin <= nd_get v i 1) /\
    (exists i, (i < nd_rows v)%nat /\ nd_get v i 1 = ymin) /\
    (forall i, i ∈ cs_idxs_ear cs <->
               (i < nd_rows v)%nat /\
               sq_dist fo v i pt_ear < f_square fo (f_lit fo r_ear)) /\
    (forall i, i ∈ cs_idxs_base cs <->
               (i < nd_rows v)%nat /\
               nd_get v i 1 < f_add fo ymin (f_lit fo height_base)) /\
    StronglySorted lt (cs_idxs_ear cs) /\ StronglySorted lt (cs_idxs_base cs) /\
    cs_idxs cs = cs_idxs_ear cs ++ cs_idxs_base cs.
Proof.
  intros Hc Hn.
  destruct (define_constraints_spec fo v Hc Hn)
    as (cs & ymin & E & (Hlow & Hatt) & (Hear & Hbase & Hse & Hsb & Hidxs) & _).
  exists cs, ymin. split; [exact E|]. split; [exact Hlow|]. split; [exact Hatt|].
  split; [exact Hear|]. split; [exact Hbase|]. auto.
Qed.

Lemma define_constraints_selection_witness :
  exists cs ymin, define_constraints absorbing_ops ex_v = Ok cs /\
    (forall i, (i < nd_rows ex_v)%nat -> ymin <= nd_get ex_v i 1) /\
    (exists i, (i < nd_rows ex_v)%nat /\ nd_get ex_v i 1 = ymin) /\
    (forall i, i ∈ cs_idxs_ear cs <->
               (i < nd_rows ex_v)%nat /\
               sq_dist absorbing_ops ex_v i pt_ear <
               f_square absorbing_ops (f_lit absorbing_ops r_ear)) /\
    (forall i, i ∈ cs_idxs_base cs <->
               (i < nd_rows ex_v)%nat /\
               nd_get ex_v i 1 < f_add absorbing_ops ymin (f_lit absorbing_ops height_base)) /\
    StronglySorted lt (cs_idxs_ear cs) /\ StronglySorted lt (cs_idxs_base cs) /\
    cs_idxs cs = cs_idxs_ear cs ++ cs_idxs_base cs.
Proof.
  apply (define_constraints_selection absorbing_ops ex_v); [reflexivity | simpl; lia].
Defined.

(** X12. Whether the base is empty is decided by the rounding of the
    threshold: the base is empty exactly when the computed sum of the least
    y and [.002] is not above the least y (the height is absorbed, as for a
    mesh far from the origin).  When the computed threshold is above the
    least y, every vertex of least y is anchored, it is among the
    constrained ids, and its target displacement is 0 even when it also lies
    in the ear. *)
Theorem lowest_vertex_anchored fo v :
  nd_cols v = 3%nat -> (0 < nd_rows v)%nat ->
  exists cs ymin, define_constraints fo v = Ok cs /\
    (forall i, (i < nd_rows v)%nat -> ymin <= nd_get v i 1) /\
    (exists i, (i < nd_rows v)%nat /\ nd_get v i 1 = ymin) /\
    (cs_idxs_base cs = [] <-> f_add fo ymin (f_lit fo height_base) <= ymin) /\
    (ymin < f_add fo ymin (f_lit fo height_base) ->
     forall i, (i < nd_rows v)%nat -> nd_get v i 1 = ymin ->
       i ∈ cs_idxs_base cs /\ i ∈ cs_idxs cs /\
       forall j, (j < 3)%nat -> nd_get (cs_dv cs) i j = 0).
Proof.
  intros Hc Hn.
  destruct (define_constraints_spec fo v Hc Hn)
    as (cs & ymin & E & (Hlow & i0 & Hi0 & Hatt) & (_ & Hbase & _ & _ & Hidxs) &
        (_ & _ & _ & Hdv)).
  exists cs, ymin. split; [exact E|]. split; [exact Hlow|].
  split; [exists i0; auto|]. split; [split|].
  - intros Hnil.
    destruct (Rle_or_lt (f_add fo ymin (f_lit fo height_base)) ymin) as [Hle | Hlt];
      [exact Hle|].
    assert (Hin : i0 ∈ cs_idxs_base cs) by (apply Hbase; split; [assumption | lra]).
    rewrite Hnil in Hin. inversion Hin.
  - intros Hle. destruct (cs_idxs_base cs) as [|i l] eqn:El; [reflexivity|].
    assert (Hin : i ∈ i :: l) by (apply elem_of_cons; now left).
    apply Hbase in Hin. destruct Hin as [Hi Hlt].
    pose proof (Hlow i Hi). lra.
  - intros Hthr i Hi Hy.
    assert (Hin : i ∈ cs_idxs_base cs) by (apply Hbase; split; [assumption | lra]).
    split; [exact Hin|]. split.
    + rewrite Hidxs. apply elem_of_app. now right.
    + intros j Hj. rewrite Hdv by assumption. now rewrite decide_True.
Qed.

Lemma lowest_vertex_anchored_witness :
  exists cs ymin, define_constraints absorbing_ops ex_v = Ok cs /\
    (forall i, (i < nd_rows ex_v)%nat -> ymin <= nd_get ex_v i 1) /\
    (exists i, (i < nd_rows ex_v)%nat /\ nd_get ex_v i 1 = ymin) /\
    (cs_idxs_base cs = [] <->
     f_add absorbing_ops ymin (f_lit absorbing_ops height_base) <= ymin) /\
    (ymin < f_add absorbing_ops ymin (f_lit absorbing_ops height_base) ->
     forall i, (i < nd_rows ex_v)%nat -> nd_get ex_v i 1 = ymin ->
       i ∈ cs_idxs_base cs /\ i ∈ cs_idxs cs /\
       forall j, (j < 3)%nat -> nd_get (cs_dv cs) i j = 0).
Proof.
  apply (lowest_vertex_anchored absorbing_ops ex_v); [reflexivity | simpl; lia].
Defined.

(** X13. The targets: [dv] has the shape of [v]; its row is 0 for a vertex
    of the base, [[.01, 0, .01]] for a vertex of the ear that is not in the
    base, and 0 for every other vertex (the anchors are written last and
    win). The rows [dv[idxs]] that enter the right-hand side are therefore 0
    at every occurrence of a base vertex, also at its occurrence in the ear
    part of [idxs], and [[.01, 0, .01]] at the others. *)
Theorem define_constraints_targets fo v :
  nd_cols v = 3%nat -> (0 < nd_rows v)%nat ->
  exists cs t, define_constraints fo v = Ok cs /\
    (nd_rows (cs_dv cs) = nd_rows v /\ nd_cols (cs_dv cs) = 3%nat /\ nd_wf (cs_dv cs)) /\
    (forall i j, (i < nd_rows v)%nat -> (j < 3)%nat ->
       nd_get (cs_dv cs) i j =
         if decide (i ∈ cs_idxs_base cs) then 0
         else if decide (i ∈ cs_idxs_ear cs) then vget move_ear j else 0) /\
    take_rows (cs_dv cs) (cs_idxs cs) = Ok t /\
    nd_rows t = length (cs_idxs cs) /\ nd_cols t = 3%nat /\
    forall p j, (p < length (cs_idxs cs))%nat -> (j < 3)%nat ->
      nd_get t p j =
        if decide (nth p (cs_idxs cs) 0%nat ∈ cs_idxs_base cs) then 0 else vget move_ear j.
Proof.
  intros Hc Hn.
  destruct (define_constraints_spec fo v Hc Hn)
    as (cs & ymin & E & _ & (Hear & Hbase & _ & _ & Hidxs) & (Hr & Hcd & Hw & Hdv)).
  assert (Hall : Forall (fun idx => (idx < nd_rows (cs_dv cs))%nat) (cs_idxs cs)).
  { apply Forall_forall. intros i Hi. rewrite Hidxs in Hi. rewrite Hr.
    apply elem_of_app in Hi. destruct Hi as [Hi | Hi];
      [now apply Hear in Hi | now apply Hbase in Hi]. }
  destruct (take_rows_spec (cs_dv cs) (cs_idxs cs) Hall) as (t & Et & Hrt & Hct & Hgt).
  exists cs, t. split; [exact E|]. split; [auto|]. split; [exact Hdv|].
  split; [exact Et|]. split; [exact Hrt|]. split; [now rewrite Hct|].
  intros p j Hp Hj. rewrite Hgt by (rewrite ?Hcd; assumption).
  assert (Hin : nth p (cs_idxs cs) 0%nat ∈ cs_idxs cs).
  { apply list_elem_of_In, nth_In, Hp. }
  assert (Hlt : (nth p (cs_idxs cs) 0 < nd_rows v)%nat).
  { rewrite Forall_forall in Hall. rewrite <- Hr. now apply Hall. }
  rewrite Hdv by assumption.
  destruct (decide (nth p (cs_idxs cs) 0%nat ∈ cs_idxs_base cs)) as [|Hnb]; [reflexivity|].
  rewrite decide_True; [reflexivity|].
  rewrite Hidxs in Hin at 2. apply elem_of_app in Hin. tauto.
Qed.

Lemma define_constraints_targets_witness :
  exists cs t, define_constraints exact_ops ex_v = Ok cs /\
    (nd_rows (cs_dv cs) = nd_rows ex_v /\ nd_cols (cs_dv cs) = 3%nat /\ nd_wf (cs_dv cs)) /\
    (forall i j, (i < nd_rows ex_v)%nat -> (j < 3)%nat ->
       nd_get (cs_dv cs) i j =
         if decide (i ∈ cs_idxs_base cs) then 0
         else if decide (i ∈ cs_idxs_ear cs) then vget move_ear j else 0) /\
    take_rows (cs_dv cs) (cs_idxs cs) = Ok t /\
    nd_rows t = length (cs_idxs cs) /\ nd_cols t = 3%nat /\
    forall p j, (p < length (cs_idxs cs))%nat -> (j < 3)%nat ->
      nd_get t p j =
        if decide (nth p (cs_idxs cs) 0%nat ∈ cs_idxs_base cs) then 0 else vget move_ear j.
Proof.
  apply (define_constraints_targets exact_ops ex_v); [reflexivity | simpl; lia].
Defined.

(** X14. The cell of the constraints and the solve fit together: with the
    ids and targets the cell leaves behind and an operator of 3n columns,
    the system is assembled without an exception, with one block of three
    rows per constrained id after the rows of [P], and the solver is called
    exactly once on it. *)
Theorem constraints_reach_solver fo lsqr v P lmbd log :
  nd_cols v = 3%nat -> (0 < nd_rows v)%nat ->
  sp_wf P -> sp_cols P = (3 * nd_rows v)%nat ->
  exists cs A b, define_constraints fo v = Ok cs /\
    system (nd_rows v) P (cs_idxs cs) (cs_dv cs) lmbd = Ok (A, b) /\
    sp_rows A = (sp_rows P + 3 * (length (cs_idxs_ear cs) + length (cs_idxs_base cs)))%nat /\
    sp_cols A = (3 * nd_rows v)%nat /\
    length b = sp_rows A /\
    solve_akvf lsqr v P (cs_idxs cs) (cs_dv cs) lmbd log =
      (reshape_F (lsqr_x (lsqr A b)) (nd_rows v) (nd_cols v), CallLsqr A b :: log).
Proof.
  intros Hc Hn HwP HcP.
  destruct (define_constraints_spec fo v Hc Hn)
    as (cs & ymin & E & _ & (Hear & Hbase & _ & _ & Hidxs) & (Hr & Hcd & Hw & Hdv)).
  assert (Hall : Forall (fun idx => (idx < nd_rows v)%nat) (cs_idxs cs)).
  { apply Forall_forall. intros i Hi. rewrite Hidxs in Hi.
    apply elem_of_app in Hi. destruct Hi as [Hi | Hi];
      [now apply Hear in Hi | now apply Hbase in Hi]. }
  destruct (system_spec P (cs_idxs cs) (cs_dv cs) lmbd (nd_rows v) Hr Hcd HwP HcP Hall)
    as (Ik & A & t & _ & Esys & _ & (HrA & HcA & _) & (Hrt & Hct & _)).
  exists cs, A, (zeros (sp_rows P) ++ vscale lmbd (flatten_F t)).
  split; [exact E|]. split; [exact Esys|].
  assert (Hlen : length (cs_idxs cs) =
                 (length (cs_idxs_ear cs) + length (cs_idxs_base cs))%nat)
    by (now rewrite Hidxs, length_app).
  split; [now rewrite HrA, Hlen|]. split; [exact HcA|]. split.
  - rewrite length_app. unfold zeros, vscale.
    rewrite repeat_length, length_map, flatten_F_length, Hrt, Hct, HrA. reflexivity.
  - now apply solve_akvf_unfold.
Qed.

Lemma constraints_reach_solver_witness :
  exists cs A b, define_constraints exact_ops ex_v = Ok cs /\
    system (nd_rows ex_v) ex_P (cs_idxs cs) (cs_dv cs) 100 = Ok (A, b) /\
    sp_rows A = (sp_rows ex_P + 3 * (length (cs_idxs_ear cs) + length (cs_idxs_base cs)))%nat /\
    sp_cols A = (3 * nd_rows ex_v)%nat /\
    length b = sp_rows A /\
    solve_akvf (ex_lsqr 1) ex_v ex_P (cs_idxs cs) (cs_dv cs) 100 [] =
      (reshape_F (lsqr_x (ex_lsqr 1 A b)) (nd_rows ex_v) (nd_cols ex_v), [CallLsqr A b]).
Proof.
  apply (constraints_reach_solver exact_ops (ex_lsqr 1) ex_v ex_P 100 []);
    [reflexivity | simpl; lia | by_computation | reflexivity].
Defined.

(** X15. What the cell does on every vertex array: with three columns and
    no vertex it raises ValueError (the minimum of an empty column), with
    three columns and a vertex it returns, with one column it raises
    IndexError (at [v[:,1]], after the subtraction has broadcast), and with
    any other number of columns it raises ValueError (at [v - pt_ear]). *)
Theorem define_constraints_outcomes fo v :
  match nd_cols v with
  | 3%nat =>
      match nd_rows v with
      | O => define_constraints fo v = Raise ValueError
      | S _ => exists cs, define_constraints fo v = Ok cs
      end
  | 1%nat => define_constraints fo v = Raise IndexError
  | _ => define_constraints fo v = Raise ValueError
  end.
Proof.
  assert (Hbad : nd_cols v <> 3%nat -> nd_cols v <> 1%nat ->
                 define_constraints fo v = Raise ValueError).
  { intros H3 H1. unfold define_constraints, broadcast_row.
    rewrite length_map. simpl length. destruct (Nat.eqb_spec (nd_cols v) 3); [contradiction|].
    destruct (Nat.eqb_spec (nd_cols v) 1); [contradiction|]. reflexivity. }
  destruct (nd_cols v) as [|[|[|[|c]]]] eqn:Hc; try (apply Hbad; lia).
  - unfold define_constraints, broadcast_row. rewrite Hc, length_map. simpl length.
    change (1 =? 3)%nat with false. change (1 =? 1)%nat with true.
    change (3 =? 1)%nat with false. cbv [orb]. cbv iota. rewrite bind_ok.
    match goal with
    | |- context [uniform_field ?k move_ear] =>
        destruct (uniform_field_spec k move_ear eq_refl) as (U & EU & _)
    end.
    rewrite EU, bind_ok. unfold nd_col. rewrite Hc. reflexivity.
  - destruct (nd_rows v) as [|r] eqn:Hr.
    + destruct (broadcast_row_same (f_sub fo) v (map (f_lit fo) pt_ear)) as (d & Ed & _);
        [now rewrite Hc | lia |].
      unfold define_constraints. rewrite Ed, bind_ok.
      match goal with
      | |- context [uniform_field ?k move_ear] =>
          destruct (uniform_field_spec k move_ear eq_refl) as (U & EU & _)
      end.
      rewrite EU, bind_ok. unfold nd_col. rewrite Hc. change (1 <? 3)%nat with true.
      cbv iota. rewrite bind_ok. unfold nd_min0. rewrite Hr. reflexivity.
    + destruct (define_constraints_spec fo v Hc) as (cs & _ & E & _); [lia|]. eauto.
Qed.

(** X16. The penalty of the constraints the cell defines: the violation is
    the sum over the ear of the squared distance of the displacement from
    its target (0 for an ear vertex that is also in the base, [[.01, 0, .01]]
    for the others) plus the sum over the base of the squared displacement;
    a vertex in both lists is counted twice, both times against 0. *)
Theorem define_constraints_violation fo v du :
  nd_cols v = 3%nat -> (0 < nd_rows v)%nat ->
  exists cs, define_constraints fo v = Ok cs /\
    violation (cs_idxs cs) (cs_dv cs) du =
      vsum (map (fun i =>
                   if decide (i ∈ cs_idxs_base cs)
                   then rsum (fun c => nd_get du i c * nd_get du i c) 3
                   else rsum (fun c => (nd_get du i c - vget move_ear c) *
                                       (nd_get du i c - vget move_ear c)) 3)
                (cs_idxs_ear cs)) +
      vsum (map (fun i => rsum (fun c => nd_get du i c * nd_get du i c) 3)
                (cs_idxs_base cs)).
Proof.
  intros Hc Hn.
  destruct (define_constraints_spec fo v Hc Hn)
    as (cs & ymin & E & _ & (Hear & Hbase & _ & _ & Hidxs) & (_ & _ & _ & Hdv)).
  exists cs. split; [exact E|].
  unfold violation. rewrite Hidxs, map_app, vsum_app. f_equal.
  - apply vsum_map_ext_in. intros i Hi.
    assert (Hlt : (i < nd_rows v)%nat) by (now apply Hear in Hi).
    destruct (decide (i ∈ cs_idxs_base cs)) as [Hb | Hb];
      apply rsum_ext; intros c Hc3; rewrite Hdv by assumption.
    + rewrite decide_True by assumption. ring.
    + rewrite decide_False by assumption. now rewrite decide_True.
  - apply vsum_map_ext_in. intros i Hi.
    assert (Hlt : (i < nd_rows v)%nat) by (now apply Hbase in Hi).
    apply rsum_ext. intros c Hc3. rewrite Hdv by assumption.
    rewrite decide_True by assumption. ring.
Qed.

Lemma define_constraints_violation_witness :
  exists cs, define_constraints exact_ops ex_v = Ok cs /\
    violation (cs_idxs cs) (cs_dv cs) ex_dv =
      vsum (map (fun i =>
                   if decide (i ∈ cs_idxs_base cs)
                   then rsum (fun c => nd_get ex_dv i c * nd_get ex_dv i c) 3
                   else rsum (fun c => (nd_get ex_dv i c - vget move_ear c) *
                                       (nd_get ex_dv i c - vget move_ear c)) 3)
                (cs_idxs_ear cs)) +
      vsum (map (fun i => rsum (fun c => nd_get ex_dv i c * nd_get ex_dv i c) 3)
                (cs_idxs_base cs)).
Proof.
  apply (define_constraints_violation exact_ops ex_v ex_dv); [reflexivity | simpl; lia].
Defined.

(** ** The iterate and the displacement field *)

(** X17. Whenever the solve returns a displacement field, the solver has
    been called once, on the system, and the field holds its iterate and
    nothing else: it has the shape of [v], and flattened column after column
    it is the iterate again, so the energies computed from the iterate are
    those of the returned field. *)
Theorem solve_akvf_keeps_iterate lsqr v P idxs dv lmbd log du log' :
  solve_akvf lsqr v P idxs dv lmbd log = (Ok du, log') ->
  exists A b, system (nd_rows v) P idxs dv lmbd = Ok (A, b) /\
    log' = CallLsqr A b :: log /\
    nd_rows du = nd_rows v /\ nd_cols du = nd_cols v /\
    flatten_F du = lsqr_x (lsqr A b) /\
    forall m, face_energy m P (flatten_F du) = face_energy m P (lsqr_x (lsqr A b)).
Proof.
  unfold solve_akvf, lift, call_lsqr, mbind, M_bind.
  destruct (system (nd_rows v) P idxs dv lmbd) as [[A b]|e] eqn:E; [|discriminate].
  simpl. intros [= Hdu <-]. exists A, b.
  pose proof (reshape_F_flatten _ _ _ _ Hdu) as Hfl.
  unfold reshape_F in Hdu.
  destruct (length (lsqr_x (lsqr A b)) =? nd_rows v * nd_cols v)%nat; [|discriminate].
  split; [reflexivity|]. split; [reflexivity|].
  split; [injection Hdu as <-; reflexivity|].
  split; [injection Hdu as <-; reflexivity|].
  split; [exact Hfl|]. intros m. now rewrite Hfl.
Qed.

Lemma solve_akvf_keeps_iterate_witness :
  exists A b, system (nd_rows ex_v) ex_P ex_idxs ex_dv 100 = Ok (A, b) /\
    [CallLsqr (ex_sys 100).1 (ex_sys 100).2] = [CallLsqr A b] /\
    nd_rows (NdArray 2 3 (zeros 6)) = nd_rows ex_v /\
    nd_cols (NdArray 2 3 (zeros 6)) = nd_cols ex_v /\
    flatten_F (NdArray 2 3 (zeros 6)) = lsqr_x (ex_lsqr 1 A b) /\
    forall m, face_energy m ex_P (flatten_F (NdArray 2 3 (zeros 6))) =
              face_energy m ex_P (lsqr_x (ex_lsqr 1 A b)).
Proof.
  apply (solve_akvf_keeps_iterate (ex_lsqr 1) ex_v ex_P ex_idxs ex_dv 100 []
           (NdArray 2 3 (zeros 6)) [CallLsqr (ex_sys 100).1 (ex_sys 100).2]).
  vm_compute. reflexivity.
Defined.
